(** * Wind-fleet dashboard: selection controller and conversation controller

    A shallow embedding of the two stateful cores of the dashboard client:

    - the map selection handler [handleFarmClick] of the components
      [ProperFleetMap] (react-leaflet, view kept in React state) and
      [WorkingFleetMap] (imperative Leaflet map and marker table), with the
      icon builder [createCustomIcon];
    - the chat component [GenieChat]: [sendMessage], the continuation that
      runs when the request settles, and [toggleSqlVisibility].

    React state is modelled by explicit state passing.  An event handler runs
    against the state of the last render; React flushes the updates of a
    discrete event (click, key press) before the next one is dispatched, so
    a handler sees the current state unless it was captured once and never
    renewed (the marker listeners of [WorkingFleetMap], modelled apart). *)

From Stdlib Require Import ZArith QArith String Ascii DecimalString List.
From Stdlib Require Import DecimalPos DecimalZ.
From stdpp Require Import base option list strings gmap sets relations.

Open Scope Z_scope.
Open Scope string_scope.
Open Scope list_scope.

(** ** JavaScript values used by the components *)

Module JS.

(** Strings are sequences of code units; the model keeps the code units
    below 256 (one [ascii] each).  [trim] removes the ECMAScript white
    space and line terminators, which in that range are
    TAB, LF, VT, FF, CR, SPACE and NBSP. *)
Definition isWhiteSpace (c : ascii) : bool :=
  match N_of_ascii c with
  | 9%N | 10%N | 11%N | 12%N | 13%N | 32%N | 160%N => true
  | _ => false
  end.

Definition isEmpty (s : string) : bool :=
  match s with EmptyString => true | String _ _ => false end.

Fixpoint trimStart (s : string) : string :=
  match s with
  | EmptyString => EmptyString
  | String c s' => if isWhiteSpace c then trimStart s' else s
  end.

Fixpoint trimEnd (s : string) : string :=
  match s with
  | EmptyString => EmptyString
  | String c s' =>
      let t := trimEnd s' in
      if isWhiteSpace c && isEmpty t then EmptyString else String c t
  end.

Definition trim (s : string) : string := trimEnd (trimStart s).

(** [ToBoolean] on a string: only the empty string is falsy. *)
Definition truthy (s : string) : bool := negb (isEmpty s).

(** [ToBoolean] on [string | null | undefined]. *)
Definition truthyOpt (o : option string) : bool :=
  match o with
  | Some s => truthy s
  | None => false
  end.

(** [a === b] for [a : string] and [b : string | null]. *)
Definition strictEq (a : string) (b : option string) : bool :=
  bool_decide (b = Some a).

(** [s] consists of white space only (the empty string included). *)
Fixpoint whitespaceOnly (s : string) : bool :=
  match s with
  | EmptyString => true
  | String c s' => isWhiteSpace c && whitespaceOnly s'
  end.

(** [xs.slice(0, -1)]: every element but the last; empty stays empty. *)
Definition slice_0_m1 {A} (xs : list A) : list A :=
  take (length xs - 1)%nat xs.

(** [Date.now().toString()] for a clock reading in milliseconds. *)
Definition numberToString (n : Z) : string :=
  NilZero.string_of_int (Z.to_int n).

(** A [Date] object: built from the clock, or parsed from a string. *)
Inductive Date :=
| DateOfClock (millis : Z)
| DateOfString (iso : string).

(** [s.toUpperCase()] on the letters a-z. *)
Definition upperChar (c : ascii) : ascii :=
  let n := N_of_ascii c in
  if (97 <=? n)%N && (n <=? 122)%N then ascii_of_N (n - 32) else c.

Fixpoint toUpperCase (s : string) : string :=
  match s with
  | EmptyString => EmptyString
  | String c s' => String (upperChar c) (toUpperCase s')
  end.

End JS.

(** ** The location set shared by the map components *)

Inductive FarmStatus := optimal | moderate | maintenance.

Record WindFarm := {
  id : string;
  name : string;
  lat : Q;
  lng : Q;
  turbineCount : Z;
  totalPower : Q;
  avgWindSpeed : Q;
  efficiency : Z;
  status : FarmStatus;
  region : string;
  state : string
}.

(** Coordinates are only stored and passed on, never computed with, so the
    decimal literals of the source are kept as exact rationals. *)
Definition txPanhandle : WindFarm :=
  {| id := "tx-panhandle"; name := "Texas Panhandle Wind Complex";
     lat := 35.2; lng := -101.8; turbineCount := 25; totalPower := 87.5;
     avgWindSpeed := 18.5; efficiency := 94; status := optimal;
     region := "Great Plains"; state := "Texas" |}%Q.

Definition iaCorn : WindFarm :=
  {| id := "ia-corn"; name := "Iowa Corn Belt Wind Farm";
     lat := 42.0; lng := -93.5; turbineCount := 18; totalPower := 63.0;
     avgWindSpeed := 14.2; efficiency := 89; status := optimal;
     region := "Midwest"; state := "Iowa" |}%Q.

Definition caTehachapi : WindFarm :=
  {| id := "ca-tehachapi"; name := "Tehachapi Pass Wind Farm";
     lat := 35.1; lng := -118.3; turbineCount := 15; totalPower := 52.5;
     avgWindSpeed := 16.8; efficiency := 92; status := optimal;
     region := "California"; state := "California" |}%Q.

Definition wyMedicine : WindFarm :=
  {| id := "wy-medicine"; name := "Medicine Bow Wind Project";
     lat := 41.9; lng := -106.3; turbineCount := 12; totalPower := 42.0;
     avgWindSpeed := 22.3; efficiency := 96; status := optimal;
     region := "Rocky Mountains"; state := "Wyoming" |}%Q.

Definition okCorridor : WindFarm :=
  {| id := "ok-corridor"; name := "Oklahoma Wind Corridor";
     lat := 35.5; lng := -98.5; turbineCount := 20; totalPower := 70.0;
     avgWindSpeed := 17.9; efficiency := 91; status := optimal;
     region := "Great Plains"; state := "Oklahoma" |}%Q.

Definition ilPrairie : WindFarm :=
  {| id := "il-prairie"; name := "Illinois Prairie Wind Farm";
     lat := 40.8; lng := -89.4; turbineCount := 10; totalPower := 35.0;
     avgWindSpeed := 12.5; efficiency := 87; status := moderate;
     region := "Midwest"; state := "Illinois" |}%Q.

(** The hard-coded array of both components, in source order. *)
Definition windFarms : list WindFarm :=
  [txPanhandle; iaCorn; caTehachapi; wyMedicine; okCorridor; ilPrairie].

(** [windFarms.find(f => f.id === key)] *)
Definition findFarm (key : option string) : option WindFarm :=
  List.find (fun f => JS.strictEq (id f) key) windFarms.

(** [status === 'optimal' ? '#10b981' : status === 'moderate' ? '#f59e0b' : '#ef4444'] *)
Definition statusColor (s : FarmStatus) : string :=
  match s with
  | optimal => "#10b981"
  | moderate => "#f59e0b"
  | maintenance => "#ef4444"
  end.

Definition LatLng : Type := (Q * Q)%type.

(** The overview of the whole fleet: [[39.5, -98.5]] at zoom 4. *)
Definition overviewCenter : LatLng := (39.5, -98.5)%Q.
Definition overviewZoom : Z := 4.
Definition farmZoom : Z := 7.

(** What [L.divIcon] is given: the interpolated parts of the HTML (size,
    colour, the pulse animation, and for [WorkingFleetMap] the two-letter
    label and its font size; empty for the SVG icon of [ProperFleetMap]) and
    the size options.  The sizes 30 and 40 are even, so [size / 2] is exact. *)
Record Icon := {
  sizePx : Z;
  color : string;
  pulse : bool;
  label : string;
  fontSize : string;
  iconSize : Z * Z;
  iconAnchor : Z * Z;
  popupAnchor : Z * Z
}.

(** The emphasised variant: the larger, animated marker. *)
Definition emphasized (i : Icon) : bool := Z.eqb (sizePx i) 40 && pulse i.

(** ** ProperFleetMap: the view is React state *)

Module ProperFleetMap.

Record State := {
  selectedFarm : option string;
  mapCenter : LatLng;
  mapZoom : Z
}.

(** The three [useState] initial values. *)
Definition init : State :=
  {| selectedFarm := None; mapCenter := overviewCenter; mapZoom := overviewZoom |}.

(** [createCustomIcon(status, isSelected)] *)
Definition createCustomIcon (status : FarmStatus) (isSelected : bool) : Icon :=
  let color := statusColor status in
  let size := if isSelected then 40 else 30 in
  {| sizePx := size;
     color := color;
     pulse := isSelected;
     label := "";
     fontSize := "";
     iconSize := (size, size);
     iconAnchor := (size / 2, size / 2);
     popupAnchor := (0, - (size / 2)) |}.

(** [handleFarmClick(farmId, lat, lng)] *)
Definition handleFarmClick (farmId : string) (lat lng : Q) (st : State) : State :=
  let selected := if JS.strictEq farmId (selectedFarm st) then None else Some farmId in
  if negb (JS.strictEq farmId (selectedFarm st)) then
    {| selectedFarm := selected; mapCenter := (lat, lng); mapZoom := 7 |}
  else
    {| selectedFarm := selected; mapCenter := (39.5, -98.5)%Q; mapZoom := 4 |}.

(** The handler as the markers and the cards install it:
    [() => handleFarmClick(farm.id, farm.lat, farm.lng)]. *)
Definition clickFarm (farm : WindFarm) (st : State) : State :=
  handleFarmClick (id farm) (lat farm) (lng farm) st.

(** The icon the render gives the marker of [farm]:
    [createCustomIcon(farm.status, farm.id === selectedFarm)]. *)
Definition markerIcon (st : State) (farm : WindFarm) : Icon :=
  createCustomIcon (status farm) (JS.strictEq (id farm) (selectedFarm st)).

(** [windFarms.find(f => f.id === selectedFarm)] *)
Definition selectedFarmData (st : State) : option WindFarm :=
  findFarm (selectedFarm st).

(** The emphasised markers of a render, in the order of [windFarms]. *)
Definition emphasizedFarms (st : State) : list WindFarm :=
  List.filter (fun farm => emphasized (markerIcon st farm)) windFarms.

(** States reached from the first render by clicks on the rendered
    markers and cards. *)
Inductive reachable : State -> Prop :=
| reachable_init : reachable init
| reachable_click farm st :
    farm ∈ windFarms -> reachable st -> reachable (clickFarm farm st).

(** The view as a function of the selection alone: the position of the
    selected location at the zoomed-in level, the overview otherwise.  The
    component stores the view instead of deriving it; this is the function
    its stored view is compared with. *)
Definition viewOf (sel : option string) : LatLng * Z :=
  match findFarm sel with
  | Some farm => ((lat farm, lng farm), farmZoom)
  | None => (overviewCenter, overviewZoom)
  end.

End ProperFleetMap.

(** ** WorkingFleetMap: an imperative Leaflet map and a marker table *)

Module WorkingFleetMap.

(** The Leaflet map behind [mapRef.current]: its current view. *)
Record LeafletMap := {
  center : LatLng;
  zoom : Z
}.

Record State := {
  selectedFarm : option string;
  mapRef : option LeafletMap;
  markersRef : gmap string Icon
}.

(** [farm.state.substring(0, 2).toUpperCase()] *)
Definition stateLabel (farm : WindFarm) : string :=
  JS.toUpperCase (substring 0 2 (state farm)).

(** The icon built in the loops of [handleFarmClick] and of the mount
    effect, for [size = isSelected ? 40 : 30]. *)
Definition farmIcon (farm : WindFarm) (isSelected : bool) : Icon :=
  let color := statusColor (status farm) in
  let size := if isSelected then 40 else 30 in
  {| sizePx := size;
     color := color;
     pulse := isSelected;
     label := stateLabel farm;
     fontSize := if Z.eqb size 40 then "12px" else "10px";
     iconSize := (size, size);
     iconAnchor := (size / 2, size / 2);
     popupAnchor := (0, - (size / 2)) |}.

(** Before the mount effect has run. *)
Definition init : State :=
  {| selectedFarm := None; mapRef := None; markersRef := ∅ |}.

(** The mount effect: the map is created on the overview and one marker
    per farm is stored under the farm's id. *)
Definition mount (st : State) : State :=
  match mapRef st with
  | Some _ => st
  | None =>
      {| selectedFarm := selectedFarm st;
         mapRef := Some {| center := (39.5, -98.5)%Q; zoom := 4 |};
         markersRef :=
           fold_left (fun m farm => <[id farm := farmIcon farm false]> m)
                     windFarms (markersRef st) |}
  end.

(** The loop [Object.keys(markersRef.current).forEach(...)]: a marker whose
    id names no farm is skipped, the others get a new icon. *)
Definition restyle (isSelected : string -> bool) (markers : gmap string Icon)
  : gmap string Icon :=
  map_imap (fun key old =>
              match findFarm (Some key) with
              | None => Some old
              | Some farm => Some (farmIcon farm (isSelected key))
              end) markers.

(** [handleFarmClick(farmId, lat, lng)], run in a closure that was created
    when [selectedFarm] was [seen]; [setSelectedFarm] acts on the state. *)
Definition handleFarmClick (seen : option string)
    (farmId : string) (lat lng : Q) (st : State) : State :=
  let selected := if JS.strictEq farmId seen then None else Some farmId in
  match mapRef st with
  | None =>
      {| selectedFarm := selected; mapRef := None; markersRef := markersRef st |}
  | Some _ =>
      if negb (JS.strictEq farmId seen) then
        {| selectedFarm := selected;
           mapRef := Some {| center := (lat, lng); zoom := 7 |};
           markersRef := restyle (fun key => bool_decide (key = farmId)) (markersRef st) |}
      else
        {| selectedFarm := selected;
           mapRef := Some {| center := (39.5, -98.5)%Q; zoom := 4 |};
           markersRef := restyle (fun _ => false) (markersRef st) |}
  end.

(** A click on a card: the handler of the current render. *)
Definition clickCard (farm : WindFarm) (st : State) : State :=
  handleFarmClick (selectedFarm st) (id farm) (lat farm) (lng farm) st.

(** A click on a map marker: the listener was registered by the mount
    effect (dependency list [[]]) and keeps the handler of the first
    render, in which [selectedFarm] is [null]. *)
Definition clickMarker (farm : WindFarm) (st : State) : State :=
  handleFarmClick None (id farm) (lat farm) (lng farm) st.

End WorkingFleetMap.

(** ** GenieChat: the conversation component *)

Module GenieChat.

Inductive Sender := user | assistant.

Inductive Status := sending | sent | failed.
(** [failed] is the status ['error'] of the source; the name [error] is kept
    for the state variable below. *)

(** The [query_results] object of a response; [sendMessage] stores it as it
    arrives. *)
Record QueryResults := {
  columns : list string;
  column_types : option (list string);
  data : list (list string);
  row_count : Z
}.

Record Message := {
  id : string;
  content : string;
  sender : Sender;
  timestamp : JS.Date;
  status : option Status;
  sql : option string;
  results : option QueryResults
}.

(** The state variables of the component ([useState]). *)
Record State := {
  messages : list Message;
  input : string;
  isLoading : bool;
  conversationId : option string;
  error : option string;
  showSqlFor : gset string
}.

(** The body of the POST to [/api/genie/send-message]. *)
Module Req.
Record t := {
  content : string;
  conversation_id : option string
}.
End Req.

(** The JSON object of a response.  [conversation_id] and [message_id] are
    [None] when the property is absent or [null]: the code tests both for
    truthiness. *)
Module Resp.
Record t := {
  conversation_id : option string;
  message_id : option string;
  content : string;
  timestamp : string;
  sql_query : option string;
  query_results : option QueryResults
}.
End Resp.

(** What [response.json()] yields: a rejection on malformed JSON, the value
    [null], or an object. *)
Inductive Body :=
| InvalidJson
| JsonNull
| JsonObject (d : Resp.t).

(** How the [fetch] promise settles: rejected (transport failure) or
    resolved with a response, whose [ok] flag says whether the HTTP status
    is a success. *)
Inductive FetchOutcome :=
| Rejected
| Resolved (ok : bool) (body : Body).

Inductive Exn :=
| Error (message : string)
| TypeError
| SyntaxError
| NetworkError.

(** The seeded greeting; [t0] is the clock at the first render. *)
Definition greeting (t0 : Z) : Message :=
  {| id := "1";
     content := "Hello! I'm your AI-powered Wind Fleet Assistant. I can help you analyze turbine data, predict maintenance needs, and provide insights about your fleet. What would you like to know?";
     sender := assistant;
     timestamp := JS.DateOfClock t0;
     status := None;
     sql := None;
     results := None |}.

Definition init (t0 : Z) : State :=
  {| messages := [greeting t0];
     input := "";
     isLoading := false;
     conversationId := None;
     error := None;
     showSqlFor := ∅ |}.

(** *** State setters *)

Definition setMessages (f : list Message -> list Message) (st : State) : State :=
  {| messages := f (messages st); input := input st; isLoading := isLoading st;
     conversationId := conversationId st; error := error st;
     showSqlFor := showSqlFor st |}.

Definition setInput (v : string) (st : State) : State :=
  {| messages := messages st; input := v; isLoading := isLoading st;
     conversationId := conversationId st; error := error st;
     showSqlFor := showSqlFor st |}.

Definition setIsLoading (v : bool) (st : State) : State :=
  {| messages := messages st; input := input st; isLoading := v;
     conversationId := conversationId st; error := error st;
     showSqlFor := showSqlFor st |}.

Definition setConversationId (v : option string) (st : State) : State :=
  {| messages := messages st; input := input st; isLoading := isLoading st;
     conversationId := v; error := error st;
     showSqlFor := showSqlFor st |}.

Definition setError (v : option string) (st : State) : State :=
  {| messages := messages st; input := input st; isLoading := isLoading st;
     conversationId := conversationId st; error := v;
     showSqlFor := showSqlFor st |}.

Definition setShowSqlFor (f : gset string -> gset string) (st : State) : State :=
  {| messages := messages st; input := input st; isLoading := isLoading st;
     conversationId := conversationId st; error := error st;
     showSqlFor := f (showSqlFor st) |}.

(** [{ ...m, status: s }] *)
Definition withStatus (m : Message) (s : Status) : Message :=
  {| id := id m; content := content m; sender := sender m;
     timestamp := timestamp m; status := Some s; sql := sql m;
     results := results m |}.

(** *** toggleSqlVisibility *)

Definition toggleSqlVisibility (messageId : string) (st : State) : State :=
  setShowSqlFor (fun prev =>
                   let newSet := prev in
                   if bool_decide (messageId ∈ newSet)
                   then newSet ∖ {[ messageId ]}
                   else newSet ∪ {[ messageId ]}) st.

(** *** sendMessage, up to the [await] *)

(** What the suspended call keeps in its closure. *)
Record Pending := {
  userMessage : Message;
  conversationIdSeen : option string
}.

(** The synchronous part of [sendMessage]: [None] when the guard returns,
    otherwise the request that is issued and the suspended rest of the call.
    [idNow] and [dateNow] are the clock readings of [Date.now()] and
    [new Date()]. *)
Definition sendMessage (idNow dateNow : Z) (st : State)
  : State * option (Req.t * Pending) :=
  if negb (JS.truthy (JS.trim (input st))) || isLoading st then (st, None)
  else
    let seen := conversationId st in
    let userMessage :=
      {| id := JS.numberToString idNow;
         content := JS.trim (input st);
         sender := user;
         timestamp := JS.DateOfClock dateNow;
         status := Some sending;
         sql := None;
         results := None |} in
    let st := setMessages (fun prev => prev ++ [userMessage]) st in
    let st := setInput "" st in
    let st := setIsLoading true st in
    let st := setError None st in
    (st,
     Some ({| Req.content := content userMessage;
              Req.conversation_id := seen |},
           {| userMessage := userMessage;
              conversationIdSeen := seen |})).

(** *** Effects of the asynchronous part

    State updates and exceptions: a computation takes the component state
    and gives an exception or a value, and the state it leaves.  Updates made
    before a [throw] stay, as in the source. *)

Definition Eff (A : Type) : Type := State -> (Exn + A) * State.

Definition ret {A} (a : A) : Eff A := fun st => (inr a, st).

Definition bind {A B} (m : Eff A) (k : A -> Eff B) : Eff B :=
  fun st =>
    match m st with
    | (inl e, st') => (inl e, st')
    | (inr a, st') => k a st'
    end.

Definition throw {A} (e : Exn) : Eff A := fun st => (inl e, st).

Definition update (f : State -> State) : Eff unit := fun st => (inr tt, f st).

Definition when (b : bool) (m : Eff unit) : Eff unit :=
  if b then m else ret tt.

(** [try { body } catch (err) { handler } finally { fin }] *)
Definition tryCatchFinally {A} (body : Eff A) (handler : Exn -> Eff A)
    (fin : Eff unit) : Eff A :=
  fun st =>
    let '(r, st) :=
      match body st with
      | (inl e, st') => handler e st'
      | (inr a, st') => (inr a, st')
      end in
    match fin st with
    | (inl e, st') => (inl e, st')
    | (inr _, st') => (r, st')
    end.

#[global] Instance eff_ret : MRet Eff := @ret.
#[global] Instance eff_bind : MBind Eff := fun A B k m => bind m k.

(** [await fetch(...)] *)
Definition awaitFetch (o : FetchOutcome) : Eff (bool * Body) :=
  match o with
  | Rejected => throw NetworkError
  | Resolved ok body => ret (ok, body)
  end.

(** [await response.json()]: [None] is the value [null]. *)
Definition awaitJson (body : Body) : Eff (option Resp.t) :=
  match body with
  | InvalidJson => throw SyntaxError
  | JsonNull => ret None
  | JsonObject d => ret (Some d)
  end.

(** Reading a property of [data] ([data.query_results] is the first):
    a [TypeError] when [data] is [null]. *)
Definition property (data : option Resp.t) : Eff Resp.t :=
  match data with
  | None => throw TypeError
  | Some d => ret d
  end.

(** [data.message_id || Date.now().toString()] *)
Definition orElse (o : option string) (dflt : string) : string :=
  match o with
  | Some s => if JS.truthy s then s else dflt
  | None => dflt
  end.

(** The rest of [sendMessage], run when the [fetch] promise settles with
    [o]; [now] is the clock reading of the [Date.now()] fallback. *)
Definition settle (p : Pending) (o : FetchOutcome) (now : Z) : Eff unit :=
  tryCatchFinally
    (response ← awaitFetch o;
     when (negb (fst response)) (throw (Error "Failed to send message")) ;;
     data ← awaitJson (snd response);
     d ← property data;
     when (negb (JS.truthyOpt (conversationIdSeen p))
           && JS.truthyOpt (Resp.conversation_id d))
          (update (setConversationId (Resp.conversation_id d))) ;;
     let assistantMessage :=
       {| id := orElse (Resp.message_id d) (JS.numberToString now);
          content := Resp.content d;
          sender := assistant;
          timestamp := JS.DateOfString (Resp.timestamp d);
          status := None;
          sql := Resp.sql_query d;
          results := Resp.query_results d |} in
     update (setMessages (fun prev =>
                            JS.slice_0_m1 prev
                            ++ [withStatus (userMessage p) sent; assistantMessage])))
    (fun err =>
       update (setError (Some "Failed to send message. Please try again.")) ;;
       update (setMessages (fun prev =>
                              JS.slice_0_m1 prev
                              ++ [withStatus (userMessage p) failed])))
    (update (setIsLoading false)).

(** *** The component with its requests in flight *)

Record World := {
  chat : State;
  inflight : list Pending;
  requests : list Req.t
}.

Inductive Event :=
| EvSend (idNow dateNow : Z)
| EvSettle (k : nat) (o : FetchOutcome) (now : Z)
| EvToggleSql (messageId : string)
| EvSetInput (value : string).

(** One event: a call of [sendMessage] (button or Enter), the [k]-th
    request in flight settling, a click on a "View SQL Query" toggle, or an
    edit of the input field.  Settling a request that does not exist is no
    event and leaves the world as it is. *)
Definition step (e : Event) (w : World) : World :=
  match e with
  | EvSend idNow dateNow =>
      match sendMessage idNow dateNow (chat w) with
      | (st, None) =>
          {| chat := st; inflight := inflight w; requests := requests w |}
      | (st, Some (req, p)) =>
          {| chat := st; inflight := inflight w ++ [p];
             requests := requests w ++ [req] |}
      end
  | EvSettle k o now =>
      match inflight w !! k with
      | None => w
      | Some p =>
          {| chat := snd (settle p o now (chat w));
             inflight := delete k (inflight w);
             requests := requests w |}
      end
  | EvToggleSql messageId =>
      {| chat := toggleSqlVisibility messageId (chat w);
         inflight := inflight w; requests := requests w |}
  | EvSetInput value =>
      {| chat := setInput value (chat w);
         inflight := inflight w; requests := requests w |}
  end.

Definition run (evs : list Event) (w : World) : World :=
  fold_left (fun w e => step e w) evs w.

Definition start (t0 : Z) : World :=
  {| chat := init t0; inflight := []; requests := [] |}.

(** A settled request counts as a success when the response is [ok] and its
    body is a JSON object; every other outcome ends in the [catch] block. *)
Definition succeeds (o : FetchOutcome) : option Resp.t :=
  match o with
  | Resolved true (JsonObject d) => Some d
  | _ => None
  end.

(** The conversation id a response carries, if any: an absent, [null] or
    empty [conversation_id] is none (the truthiness test of the code). *)
Definition returnedConversationId (d : Resp.t) : option string :=
  if JS.truthyOpt (Resp.conversation_id d) then Resp.conversation_id d else None.

(** The user message [sendMessage] builds from the input field. *)
Definition newUserMessage (idNow dateNow : Z) (text : string) (s : Status) : Message :=
  {| id := JS.numberToString idNow;
     content := JS.trim text;
     sender := user;
     timestamp := JS.DateOfClock dateNow;
     status := Some s;
     sql := None;
     results := None |}.

(** The assistant message built from the response [d]. *)
Definition newAssistantMessage (d : Resp.t) (now : Z) : Message :=
  {| id := orElse (Resp.message_id d) (JS.numberToString now);
     content := Resp.content d;
     sender := assistant;
     timestamp := JS.DateOfString (Resp.timestamp d);
     status := None;
     sql := Resp.sql_query d;
     results := Resp.query_results d |}.

(** Events other than the settling of a request. *)
Definition isSettle (e : Event) : bool :=
  match e with
  | EvSettle _ _ _ => true
  | _ => false
  end.

(** The banner text of the [catch] block. *)
Definition failureBanner : string := "Failed to send message. Please try again.".

(** A sample exchange: the question typed after the first render and a
    successful response that opens conversation "c1". *)
Definition sampleWorld : World :=
  run [EvSetInput "How many turbines?"] (start 0).

Definition sampleResponse : Resp.t :=
  {| Resp.conversation_id := Some "c1";
     Resp.message_id := Some "m1";
     Resp.content := "There are 100 turbines.";
     Resp.timestamp := "2025-01-01T00:00:00Z";
     Resp.sql_query := Some "SELECT COUNT(*) FROM turbines";
     Resp.query_results := None |}.

(** The sample question answered, and the same question failing in
    transport. *)
Definition sampleSuccess : World :=
  run [EvSend 1000 1001;
       EvSettle 0 (Resolved true (JsonObject sampleResponse)) 2000]
      sampleWorld.

Definition sampleFailure : World :=
  run [EvSend 1000 1001; EvSettle 0 Rejected 2000] sampleWorld.

(** How a stored message may differ later: not at all, or a user message
    being sent has become [sent] or [failed]. *)
Definition advances (m m' : Message) : Prop :=
  m' = m \/
  (sender m = user /\ status m = Some sending /\
   (m' = withStatus m sent \/ m' = withStatus m failed)).

(** [l'] keeps the messages of [l] in place, each possibly advanced, and
    adds messages after them. *)
Definition extends (l l' : list Message) : Prop :=
  exists kept added, l' = kept ++ added /\ Forall2 advances l kept.

(** A message that is no longer waiting for its response. *)
Definition settled (m : Message) : Prop := status m <> Some sending.

(** The shape of the worlds that can arise after a first render at [t0]:
    either no request is in flight, [isLoading] is false and the list is the
    greeting followed by settled messages; or exactly one request is in
    flight, [isLoading] is true and the list ends with that request's user
    message, still [sending]. *)
Definition consistent (t0 : Z) (w : World) : Prop :=
  match inflight w with
  | [] =>
      isLoading (chat w) = false /\
      exists rest, messages (chat w) = greeting t0 :: rest /\ Forall settled rest
  | [p] =>
      isLoading (chat w) = true /\
      sender (userMessage p) = user /\
      status (userMessage p) = Some sending /\
      exists rest, messages (chat w) = (greeting t0 :: rest) ++ [userMessage p] /\
                   Forall settled rest
  | _ => False
  end.

End GenieChat.

(** ** GenieChat: what the render derives from the state *)

Module GenieChatView.

Import GenieChat.

(** [disabled={!input.trim() || isLoading}] of the send button. *)
Definition sendDisabled (st : State) : bool :=
  negb (JS.truthy (JS.trim (input st))) || isLoading st.

(** A key press in the input field: [key] and [shiftKey] of the event. *)
Record KeyboardEvent := {
  key : string;
  shiftKey : bool
}.

(** The test of [handleKeyPress]: [e.key === 'Enter' && !e.shiftKey]. *)
Definition submits (e : KeyboardEvent) : bool :=
  bool_decide (key e = "Enter") && negb (shiftKey e).

(** [handleKeyPress(e)]: on Enter without Shift the default action is
    prevented and [sendMessage()] is called; other keys are left alone. *)
Definition handleKeyPress (e : KeyboardEvent) (idNow dateNow : Z) (w : World) : World :=
  if submits e then step (EvSend idNow dateNow) w else w.

(** [messages.length === 1 && ...]: the "Try asking" panel. *)
Definition suggestionsShown (st : State) : bool :=
  bool_decide (length (messages st) = 1%nat).

(** [isLoading && ...]: the "Genie is thinking..." row. *)
Definition spinnerShown (st : State) : bool := isLoading st.

(** [error && ...]: the red banner. *)
Definition bannerShown (st : State) : bool := JS.truthyOpt (error st).

(** [message.results.data.slice(0, 10)]: the rows of the result table. *)
Definition shownRows (r : QueryResults) : list (list string) :=
  take 10 (data r).

(** [message.results.data.length > 10 && ...]: the "Showing first 10 rows"
    footer. *)
Definition truncationNotice (r : QueryResults) : bool :=
  bool_decide (10 < length (data r))%nat.

(** The messages of the user, in list order. *)
Definition userMessages (st : State) : list Message :=
  List.filter (fun m => match sender m with user => true | assistant => false end)
              (messages st).

(** The part of the invariant that concerns the conversation id: it is
    never the empty string, it is unset as long as no request was issued,
    the first request carried none, and the call in flight saw the current
    one. *)
Definition threaded (w : World) : Prop :=
  conversationId (chat w) <> Some "" /\
  (requests w = [] -> conversationId (chat w) = None) /\
  (forall r, head (requests w) = Some r -> Req.conversation_id r = None) /\
  (forall p, p ∈ inflight w -> conversationIdSeen p = conversationId (chat w)).

(** The part of the invariant that concerns the banner and the transcript:
    the banner is absent while a request is pending and its text is the
    fixed one; before the first request the list is the greeting alone;
    the user messages are the requests issued, in order; and every request
    carries a non-empty text without surrounding white space. *)
Definition accounted (w : World) : Prop :=
  (isLoading (chat w) = true -> error (chat w) = None) /\
  (error (chat w) = None \/ error (chat w) = Some failureBanner) /\
  (requests w = [] -> inflight w = [] /\ length (messages (chat w)) = 1%nat) /\
  map content (userMessages (chat w)) = map Req.content (requests w) /\
  Forall (fun r => Req.content r <> "" /\ JS.trim (Req.content r) = Req.content r)
         (requests w).

End GenieChatView.

(** ** WorkingFleetMap: the states of a mounted component *)

Module WorkingFleetMapRuns.

Import WorkingFleetMap.

(** States reached after the mount effect by clicks on cards and on map
    markers of the rendered locations. *)
Inductive reachable : State -> Prop :=
| reachable_mount : reachable (mount init)
| reachable_card farm st :
    farm ∈ windFarms -> reachable st -> reachable (clickCard farm st)
| reachable_marker farm st :
    farm ∈ windFarms -> reachable st -> reachable (clickMarker farm st).

(** The marker table agrees with the selection: the keys are the ids of the
    locations and each icon is the one built for its location, emphasised
    exactly when the location is the selected one. *)
Definition markersFollow (st : State) : Prop :=
  (forall farm, farm ∈ windFarms ->
     markersRef st !! id farm
     = Some (farmIcon farm (JS.strictEq (id farm) (selectedFarm st)))) /\
  (forall key icon, markersRef st !! key = Some icon ->
     exists farm, farm ∈ windFarms /\ id farm = key).

(** The Leaflet view agrees with the selection. *)
Definition viewFollows (st : State) : Prop :=
  mapRef st
  = Some (match findFarm (selectedFarm st) with
          | Some farm => {| center := (lat farm, lng farm); zoom := farmZoom |}
          | None => {| center := overviewCenter; zoom := overviewZoom |}
          end).

End WorkingFleetMapRuns.

(** ** InteractiveFleetMap: the selection is the only state that changes *)

Module InteractiveFleetMap.

Record State := {
  selectedFarm : option string;
  zoomLevel : Z
}.

Definition init : State := {| selectedFarm := None; zoomLevel := 5 |}.

(** The handler of the markers and of the cards:
    [() => setSelectedFarm(farm.id === selectedFarm ? null : farm.id)]. *)
Definition clickFarm (farm : WindFarm) (st : State) : State :=
  {| selectedFarm :=
       if JS.strictEq (id farm) (selectedFarm st) then None else Some (id farm);
     zoomLevel := zoomLevel st |}.

(** [windFarms.find(f => f.id === selectedFarm)] *)
Definition selectedFarmData (st : State) : option WindFarm :=
  findFarm (selectedFarm st).

(** [selectedFarmData && ...]: the details overlay. *)
Definition overlayShown (st : State) : bool :=
  match selectedFarmData st with Some _ => true | None => false end.

(** [!selectedFarm && ...]: the "Click any marker" hint. *)
Definition hintShown (st : State) : bool :=
  negb (JS.truthyOpt (selectedFarm st)).

(** [selectedFarm === farm.id]: the large, ringed marker and the pulse. *)
Definition markerLarge (st : State) (farm : WindFarm) : bool :=
  JS.strictEq (id farm) (selectedFarm st).

Definition largeMarkers (st : State) : list WindFarm :=
  List.filter (markerLarge st) windFarms.

Inductive reachable : State -> Prop :=
| reachable_init : reachable init
| reachable_click farm st :
    farm ∈ windFarms -> reachable st -> reachable (clickFarm farm st).

End InteractiveFleetMap.

(** ** SimpleFleetMap: select, and a button back to the overview *)

Module SimpleFleetMap.

Record State := {
  selectedFarm : option string
}.

Definition init : State := {| selectedFarm := None |}.

(** The handler of the location buttons and of the cards:
    [() => setSelectedFarm(farm.id)]. *)
Definition clickFarm (farm : WindFarm) (st : State) : State :=
  {| selectedFarm := Some (id farm) |}.

(** [selectedFarm && ...]: whether "View All Farms" is rendered. *)
Definition viewAllShown (st : State) : bool :=
  JS.truthyOpt (selectedFarm st).

(** The button's handler: [() => setSelectedFarm(null)]. *)
Definition viewAll (st : State) : State := {| selectedFarm := None |}.

(** [windFarms.find(f => f.id === selectedFarm)] *)
Definition selectedFarmData (st : State) : option WindFarm :=
  findFarm (selectedFarm st).

(** [key={selectedFarm || 'all'}]: the map frame is reloaded when this
    changes. *)
Definition frameKey (st : State) : string :=
  match selectedFarm st with
  | Some s => if JS.truthy s then s else "all"
  | None => "all"
  end.

(** Which branch [createMapUrl] takes: the frame zoomed on the selected
    location ([true]) or the box around all locations. *)
Definition zoomedUrl (st : State) : bool :=
  match selectedFarmData st with Some _ => true | None => false end.

Inductive reachable : State -> Prop :=
| reachable_init : reachable init
| reachable_click farm st :
    farm ∈ windFarms -> reachable st -> reachable (clickFarm farm st)
| reachable_viewAll st :
    viewAllShown st = true -> reachable st -> reachable (viewAll st).

End SimpleFleetMap.

(** ** NotificationsDropdown *)

Module NotificationsDropdown.

Inductive NotificationType := warning | success | info | error.

Record Notification := {
  id : string;
  type : NotificationType;
  title : string;
  message : string;
  time : string;
  read : bool
}.

(** The seven notifications of the first render. *)
Definition initial : list Notification := [
  {| id := "1"; type := warning; title := "Turbine T-045 Maintenance Alert";
     message := "Scheduled maintenance required within 48 hours";
     time := "5 minutes ago"; read := false |};
  {| id := "2"; type := error; title := "High Wind Speed Alert";
     message := "Oklahoma Wind Corridor experiencing 85 mph gusts";
     time := "15 minutes ago"; read := false |};
  {| id := "3"; type := success; title := "Maintenance Completed";
     message := "Turbine T-023 is back online and operational";
     time := "1 hour ago"; read := false |};
  {| id := "4"; type := info; title := "System Update Available";
     message := "New firmware v2.4.1 ready for deployment";
     time := "2 hours ago"; read := true |};
  {| id := "5"; type := warning; title := "Efficiency Drop Detected";
     message := "Illinois Prairie Farm showing 15% efficiency decrease";
     time := "3 hours ago"; read := true |};
  {| id := "6"; type := success; title := "Daily Report Generated";
     message := "Fleet performance report ready for review";
     time := "5 hours ago"; read := true |};
  {| id := "7"; type := info; title := "Weather Forecast Update";
     message := "Optimal wind conditions expected for next 72 hours";
     time := "8 hours ago"; read := true |}
].

(** [notifications.filter(n => !n.read).length] *)
Definition unreadCount (notifications : list Notification) : nat :=
  length (List.filter (fun n => negb (read n)) notifications).

(** [{ ...n, read: true }] *)
Definition asRead (n : Notification) : Notification :=
  {| id := id n; type := type n; title := title n; message := message n;
     time := time n; read := true |}.

(** [markAsRead(id)]: [prev.map(n => n.id === id ? { ...n, read: true } : n)] *)
Definition markAsRead (i : string) (prev : list Notification) : list Notification :=
  map (fun n => if bool_decide (id n = i) then asRead n else n) prev.

(** [markAllAsRead()]: [prev.map(n => ({ ...n, read: true }))] *)
Definition markAllAsRead (prev : list Notification) : list Notification :=
  map asRead prev.

(** [clearAll()]: [setNotifications([])] *)
Definition clearAll (prev : list Notification) : list Notification := [].

(** [unreadCount > 0 && ...]: the red dot, the "n new" badge and the
    "Mark all read" button. *)
Definition unreadShown (notifications : list Notification) : bool :=
  bool_decide (0 < unreadCount notifications)%nat.

(** [notifications.length > 0 && ...]: the "Clear all" button. *)
Definition clearAllShown (notifications : list Notification) : bool :=
  bool_decide (0 < length notifications)%nat.

(** The three things a user can do in the menu. *)
Inductive Action :=
| MarkAsRead (i : string)
| MarkAllAsRead
| ClearAll.

Definition perform (a : Action) (notifications : list Notification)
  : list Notification :=
  match a with
  | MarkAsRead i => markAsRead i notifications
  | MarkAllAsRead => markAllAsRead notifications
  | ClearAll => clearAll notifications
  end.

Definition performAll (actions : list Action) (notifications : list Notification)
  : list Notification :=
  fold_left (fun ns a => perform a ns) actions notifications.

(** The unread notifications with a given id. *)
Definition unreadWithId (i : string) (notifications : list Notification)
  : list Notification :=
  List.filter (fun n => negb (read n) && bool_decide (id n = i)) notifications.

End NotificationsDropdown.

(** ** TurbineFleetDashboard: the polling effect *)

Module TurbineFleetDashboard.

(** The payloads are JSON values the component only stores; their types are
    parameters.  The two object payloads may be [null]. *)
Record State (Kpis Summary Energy Turbine : Type) := {
  kpis : option Kpis;
  assistantSummary : option Summary;
  energyData : list Energy;
  turbines : list Turbine;
  activeTab : string
}.

Arguments kpis {_ _ _ _} _.
Arguments assistantSummary {_ _ _ _} _.
Arguments energyData {_ _ _ _} _.
Arguments turbines {_ _ _ _} _.
Arguments activeTab {_ _ _ _} _.

(** How one [fetch] goes: the promise rejects, or it resolves with a
    response that is [ok] or not and whose body is valid JSON ([Some]) or
    not. *)
Inductive Reply (A : Type) :=
| Rejects
| Responds (ok : bool) (body : option A).

Arguments Rejects {A}.
Arguments Responds {A} ok body.

(** What happens during a poll besides the state updates: the URLs
    fetched, and the errors given to [console.error]. *)
Record Trace := {
  fetched : list string;
  logged : nat
}.

Section Poll.

Context {Kpis Summary Energy Turbine : Type}.

Abbreviation St := (State Kpis Summary Energy Turbine).

Definition setKpis (v : option Kpis) (st : St) : St :=
  {| kpis := v; assistantSummary := assistantSummary st;
     energyData := energyData st; turbines := turbines st;
     activeTab := activeTab st |}.

Definition setAssistantSummary (v : option Summary) (st : St) : St :=
  {| kpis := kpis st; assistantSummary := v;
     energyData := energyData st; turbines := turbines st;
     activeTab := activeTab st |}.

Definition setEnergyData (v : list Energy) (st : St) : St :=
  {| kpis := kpis st; assistantSummary := assistantSummary st;
     energyData := v; turbines := turbines st;
     activeTab := activeTab st |}.

Definition setTurbines (v : list Turbine) (st : St) : St :=
  {| kpis := kpis st; assistantSummary := assistantSummary st;
     energyData := energyData st; turbines := v;
     activeTab := activeTab st |}.

(** [setActiveTab], the handler of the tab list. *)
Definition setActiveTab (v : string) (st : St) : St :=
  {| kpis := kpis st; assistantSummary := assistantSummary st;
     energyData := energyData st; turbines := turbines st;
     activeTab := v |}.

(** A computation of the poll: it may throw, and it leaves a state and a
    trace either way. *)
Definition Poll (A : Type) : Type := St * Trace -> option A * (St * Trace).

Definition pret {A} (a : A) : Poll A := fun w => (Some a, w).

Definition pbind {A B} (m : Poll A) (k : A -> Poll B) : Poll B :=
  fun w =>
    match m w with
    | (None, w') => (None, w')
    | (Some a, w') => k a w'
    end.

Definition pthrow {A} : Poll A := fun w => (None, w).

(** [await fetch(url)] *)
Definition awaitFetch {A} (url : string) (r : Reply A) : Poll (bool * option A) :=
  fun w =>
    let w := (fst w, {| fetched := fetched (snd w) ++ [url];
                        logged := logged (snd w) |}) in
    match r with
    | Rejects => (None, w)
    | Responds ok body => (Some (ok, body), w)
    end.

(** [await response.json()] *)
Definition awaitJson {A} (body : option A) : Poll A :=
  match body with
  | Some data => pret data
  | None => pthrow
  end.

(** One block of the [try]: fetch, and when the response is [ok] parse it
    and store the data. *)
Definition refresh {A} (url : string) (r : Reply A) (set : A -> St -> St)
  : Poll unit :=
  pbind (awaitFetch url r) (fun response =>
    if fst response
    then pbind (awaitJson (snd response))
               (fun data w => (Some tt, (set data (fst w), snd w)))
    else pret tt).

(** [fetchData()]: the four blocks in a [try]; the [catch] logs. *)
Definition fetchData
    (r1 : Reply (option Kpis)) (r2 : Reply (option Summary))
    (r3 : Reply (list Energy)) (r4 : Reply (list Turbine))
  : St * Trace -> St * Trace :=
  fun w =>
    match pbind (refresh "/api/turbine/kpis" r1 setKpis) (fun _ =>
          pbind (refresh "/api/turbine/assistant-summary" r2 setAssistantSummary) (fun _ =>
          pbind (refresh "/api/turbine/energy-output" r3 setEnergyData) (fun _ =>
                 refresh "/api/turbine/turbines/map/clusters" r4 setTurbines))) w
    with
    | (Some _, w') => w'
    | (None, (st, tr)) =>
        (st, {| fetched := fetched tr; logged := S (logged tr) |})
    end.

(** A reply makes its block throw: the fetch rejects, or an [ok] response
    has no valid JSON body. *)
Definition throws {A} (r : Reply A) : bool :=
  match r with
  | Rejects => true
  | Responds true None => true
  | _ => false
  end.

(** The data a reply delivers, if its response is [ok] with a JSON body. *)
Definition delivered {A} (r : Reply A) : option A :=
  match r with
  | Responds true (Some data) => Some data
  | _ => None
  end.

End Poll.

(** The state of the first render, before any poll. *)
Definition init {Kpis Summary Energy Turbine : Type} (tab : string)
  : State Kpis Summary Energy Turbine :=
  {| kpis := None; assistantSummary := None; energyData := [];
     turbines := []; activeTab := tab |}.

(** The four URLs, in the order of the [try] block. *)
Definition endpoints : list string :=
  ["/api/turbine/kpis"; "/api/turbine/assistant-summary";
   "/api/turbine/energy-output"; "/api/turbine/turbines/map/clusters"].

End TurbineFleetDashboard.

(** ** FleetMap: the turbine dots around the locations *)

Module FleetMap.

(** [turbines.slice(0, 30)]: the turbines that get a dot. *)
Definition shownTurbines {T} (turbines : list T) : list T := take 30 turbines.

(** [idx % windFarms.length]; the component's array has the same six
    locations in the same order as [windFarms]. *)
Definition farmIndex (idx : nat) : nat := (idx mod length windFarms)%nat.

(** [windFarms[farmIndex]]: [None] is [undefined], on which reading [lat]
    would throw. *)
Definition farmOf (idx : nat) : option WindFarm := windFarms !! farmIndex idx.

(** [idx % 3]: which of the three distances from the location is used. *)
Definition ring (idx : nat) : nat := (idx mod 3)%nat.

(** The indexes of the dots that are placed around the location at
    position [j]. *)
Definition dotsOf {T} (j : nat) (turbines : list T) : list nat :=
  List.filter (fun idx => Nat.eqb (farmIndex idx) j)
              (seq 0 (length (shownTurbines turbines))).

End FleetMap.

(** * Properties *)

(** ** JavaScript helpers *)

Lemma strictEq_true (a : string) (b : option string) :
  JS.strictEq a b = true <-> b = Some a.
Proof. unfold JS.strictEq. apply bool_decide_eq_true. Qed.

Lemma strictEq_false (a : string) (b : option string) :
  JS.strictEq a b = false <-> b <> Some a.
Proof. unfold JS.strictEq. apply bool_decide_eq_false. Qed.

Lemma strictEq_refl (a : string) : JS.strictEq a (Some a) = true.
Proof. by apply strictEq_true. Qed.

Lemma strictEq_None (a : string) : JS.strictEq a None = false.
Proof. by apply strictEq_false. Qed.

Lemma strictEq_Some (a b : string) :
  JS.strictEq a (Some b) = bool_decide (b = a).
Proof.
  unfold JS.strictEq. apply bool_decide_ext. split; congruence.
Qed.

Lemma trimStart_whitespaceOnly (s : string) :
  JS.whitespaceOnly s = true -> JS.trimStart s = "".
Proof.
  induction s as [|c s IH]; simpl; [done|].
  intros [Hc Hs]%andb_true_iff. rewrite Hc. auto.
Qed.

Lemma trimStart_head (s : string) :
  match JS.trimStart s with
  | EmptyString => JS.whitespaceOnly s = true
  | String c _ => JS.isWhiteSpace c = false /\ JS.whitespaceOnly s = false
  end.
Proof.
  induction s as [|c s IH]; simpl; [done|].
  destruct (JS.isWhiteSpace c) eqn:Hc; simpl; [|done].
  destruct (JS.trimStart s); [done|]. by destruct IH.
Qed.

Lemma trimEnd_empty (s : string) :
  JS.trimEnd s = "" <-> JS.whitespaceOnly s = true.
Proof.
  induction s as [|c s IH]; simpl; [done|].
  destruct (JS.isWhiteSpace c) eqn:Hc; simpl.
  - destruct (JS.trimEnd s) eqn:Ht; simpl.
    + split; [intros _; by apply IH | done].
    + split; [done|]. intros Hs. apply IH in Hs. done.
  - split; done.
Qed.

(** [trim] gives the empty string exactly on white-space-only input. *)
Lemma trim_empty (s : string) :
  JS.trim s = "" <-> JS.whitespaceOnly s = true.
Proof.
  unfold JS.trim. split.
  - intros H. pose proof (trimStart_head s) as Hh.
    destruct (JS.trimStart s) as [|c t] eqn:Ht; [done|].
    destruct Hh as [Hc _]. simpl in H. rewrite Hc in H. done.
  - intros H. by rewrite trimStart_whitespaceOnly.
Qed.

Lemma truthy_trim (s : string) :
  JS.truthy (JS.trim s) = negb (JS.whitespaceOnly s).
Proof.
  unfold JS.truthy. destruct (JS.whitespaceOnly s) eqn:Hw.
  - apply trim_empty in Hw. by rewrite Hw.
  - destruct (JS.trim s) eqn:Ht; [|done].
    apply trim_empty in Ht. congruence.
Qed.

Lemma slice_0_m1_snoc {A} (xs : list A) (x : A) :
  JS.slice_0_m1 (xs ++ [x]) = xs.
Proof.
  unfold JS.slice_0_m1. rewrite length_app. simpl.
  replace (length xs + 1 - 1)%nat with (length xs) by lia.
  by rewrite take_app_length.
Qed.

(** ** The location set *)

Lemma windFarms_cases (P : WindFarm -> Prop) :
  P txPanhandle -> P iaCorn -> P caTehachapi -> P wyMedicine ->
  P okCorridor -> P ilPrairie ->
  forall farm, farm ∈ windFarms -> P farm.
Proof.
  intros ? ? ? ? ? ? farm H. unfold windFarms in H.
  repeat (apply elem_of_cons in H as [->|H]; [assumption|]).
  by apply elem_of_nil in H.
Qed.

Lemma windFarms_ids_NoDup : NoDup (map id windFarms).
Proof. apply (bool_decide_unpack _). by vm_compute. Qed.

(** Two farms of the set with the same id are the same farm. *)
Lemma windFarms_id_inj (a b : WindFarm) :
  a ∈ windFarms -> b ∈ windFarms -> id a = id b -> a = b.
Proof.
  intros Ha Hb. revert a Ha b Hb.
  apply (windFarms_cases
           (fun a => forall b, b ∈ windFarms -> id a = id b -> a = b));
    apply (windFarms_cases (fun b => _ = id b -> _ = b));
    (reflexivity || (intros H; vm_compute in H; discriminate H)).
Qed.

Lemma findFarm_id (farm : WindFarm) :
  farm ∈ windFarms -> findFarm (Some (id farm)) = Some farm.
Proof.
  revert farm.
  apply (windFarms_cases (fun farm => findFarm (Some (id farm)) = Some farm));
    reflexivity.
Qed.

Lemma findFarm_Some (key : option string) (farm : WindFarm) :
  findFarm key = Some farm -> farm ∈ windFarms /\ key = Some (id farm).
Proof.
  intros H. apply find_some in H as [Hin Heq].
  split; [by apply list_elem_of_In | by apply strictEq_true].
Qed.

Lemma findFarm_unknown (farmId : string) :
  farmId ∉ map id windFarms -> findFarm (Some farmId) = None.
Proof.
  intros Hn. destruct (findFarm (Some farmId)) as [farm|] eqn:Hf; [|done].
  apply findFarm_Some in Hf as [Hin Heq]. inversion Heq; subst.
  exfalso. apply Hn. apply list_elem_of_fmap. eauto.
Qed.

Lemma findFarm_None : findFarm None = None.
Proof. reflexivity. Qed.

Lemma txPanhandle_in : txPanhandle ∈ windFarms.
Proof. unfold windFarms. repeat constructor. Qed.

Lemma iaCorn_in : iaCorn ∈ windFarms.
Proof. unfold windFarms. repeat constructor. Qed.

Lemma txPanhandle_iaCorn : txPanhandle <> iaCorn.
Proof. intros H. apply (f_equal id) in H. vm_compute in H. discriminate H. Qed.

Lemma atlantis_unknown : "atlantis" ∉ map id windFarms.
Proof. apply (bool_decide_unpack _). by vm_compute. Qed.

(** ** ProperFleetMap *)

Section ProperFleetMapFacts.

Import ProperFleetMap.

Lemma handleFarmClick_select (farmId : string) (la ln : Q) (st : State) :
  selectedFarm st <> Some farmId ->
  handleFarmClick farmId la ln st =
    {| selectedFarm := Some farmId; mapCenter := (la, ln); mapZoom := farmZoom |}.
Proof.
  intros H. apply strictEq_false in H. unfold handleFarmClick. by rewrite H.
Qed.

Lemma handleFarmClick_clear (farmId : string) (la ln : Q) (st : State) :
  selectedFarm st = Some farmId ->
  handleFarmClick farmId la ln st =
    {| selectedFarm := None; mapCenter := overviewCenter; mapZoom := overviewZoom |}.
Proof.
  intros H. apply strictEq_true in H. unfold handleFarmClick. by rewrite H.
Qed.

Lemma handleFarmClick_cases (farmId : string) (la ln : Q) (st : State) :
  (selectedFarm st = Some farmId /\ handleFarmClick farmId la ln st = init) \/
  (selectedFarm st <> Some farmId /\
   handleFarmClick farmId la ln st =
     {| selectedFarm := Some farmId; mapCenter := (la, ln); mapZoom := farmZoom |}).
Proof.
  destruct (decide (selectedFarm st = Some farmId)) as [H|H].
  - left. split; [done|]. by apply handleFarmClick_clear.
  - right. split; [done|]. by apply handleFarmClick_select.
Qed.

Lemma emphasizedFarms_selected (farm : WindFarm) (c : LatLng) (z : Z) :
  farm ∈ windFarms ->
  emphasizedFarms {| selectedFarm := Some (id farm); mapCenter := c; mapZoom := z |}
  = [farm].
Proof.
  revert farm.
  apply (windFarms_cases
           (fun farm => emphasizedFarms
                          {| selectedFarm := Some (id farm);
                             mapCenter := c; mapZoom := z |} = [farm]));
    reflexivity.
Qed.

Lemma emphasizedFarms_unknown (sel : option string) (c : LatLng) (z : Z) :
  findFarm sel = None ->
  emphasizedFarms {| selectedFarm := sel; mapCenter := c; mapZoom := z |} = [].
Proof.
  intros Hn. unfold emphasizedFarms, findFarm in *.
  induction windFarms as [|farm l IH]; [done|].
  simpl in *. unfold markerIcon at 1. simpl.
  destruct (JS.strictEq (id farm) sel); [done|]. simpl. auto.
Qed.

(** What a reachable state looks like. *)
Lemma reachable_shape (st : State) :
  reachable st ->
  st = init \/
  exists farm, farm ∈ windFarms /\
    st = {| selectedFarm := Some (id farm);
            mapCenter := (lat farm, lng farm); mapZoom := farmZoom |}.
Proof.
  induction 1 as [|farm st Hin _ _]; [by left|].
  unfold clickFarm.
  destruct (handleFarmClick_cases (id farm) (lat farm) (lng farm) st)
    as [[_ ->]|[_ ->]]; [by left | right; eauto].
Qed.

End ProperFleetMapFacts.

(** C5: from any selection state, toggling a location A and then a different
    location B leaves B selected, with the view centred on B's position at
    the zoomed-in level: the second click overrides the first selection. *)
Theorem select_other_overrides (A B : WindFarm) (st : ProperFleetMap.State) :
  A ∈ windFarms -> B ∈ windFarms -> A <> B ->
  let st' := ProperFleetMap.clickFarm B (ProperFleetMap.clickFarm A st) in
  ProperFleetMap.selectedFarm st' = Some (id B) /\
  ProperFleetMap.mapCenter st' = (lat B, lng B) /\
  ProperFleetMap.mapZoom st' = farmZoom.
Proof.
  intros HA HB Hne st'. subst st'. unfold ProperFleetMap.clickFarm.
  assert (id B <> id A) as Hid.
  { intros Heq. apply Hne. by apply windFarms_id_inj. }
  rewrite (handleFarmClick_select (id B)); [done|].
  destruct (handleFarmClick_cases (id A) (lat A) (lng A) st)
    as [[_ ->]|[_ ->]]; simpl; congruence.
Qed.

Lemma select_other_overrides_witness :
  ProperFleetMap.selectedFarm
    (ProperFleetMap.clickFarm iaCorn
       (ProperFleetMap.clickFarm txPanhandle ProperFleetMap.init))
  = Some "ia-corn".
Proof.
  exact (proj1 (select_other_overrides txPanhandle iaCorn ProperFleetMap.init
                  txPanhandle_in iaCorn_in txPanhandle_iaCorn)).
Defined.

(** C4: in every state reached by clicks on the rendered locations the view
    and the marker emphasis are determined by [selectedFarm]: the centre and
    zoom are the ones [viewOf] computes from it; with no selection the view
    is the overview and no marker is emphasised; with a selection the
    selected id is that of a location L of the set, the view is centred on L
    at the zoomed-in level, and L is the one emphasised marker. *)
Theorem view_and_emphasis_follow_selection (st : ProperFleetMap.State) :
  ProperFleetMap.reachable st ->
  (ProperFleetMap.mapCenter st, ProperFleetMap.mapZoom st)
    = ProperFleetMap.viewOf (ProperFleetMap.selectedFarm st) /\
  match ProperFleetMap.selectedFarm st with
  | None =>
      ProperFleetMap.mapCenter st = overviewCenter /\
      ProperFleetMap.mapZoom st = overviewZoom /\
      ProperFleetMap.emphasizedFarms st = []
  | Some sel =>
      exists L, L ∈ windFarms /\ id L = sel /\
        ProperFleetMap.mapCenter st = (lat L, lng L) /\
        ProperFleetMap.mapZoom st = farmZoom /\
        ProperFleetMap.emphasizedFarms st = [L]
  end.
Proof.
  intros [->|(farm & Hin & ->)]%reachable_shape; simpl.
  - split; [reflexivity|]. repeat split; reflexivity.
  - split.
    + unfold ProperFleetMap.viewOf. by rewrite findFarm_id.
    + exists farm. repeat split; try done. by apply emphasizedFarms_selected.
Qed.

Lemma view_and_emphasis_follow_selection_witness :
  ProperFleetMap.emphasizedFarms (ProperFleetMap.clickFarm txPanhandle ProperFleetMap.init)
  = [txPanhandle].
Proof.
  pose proof (view_and_emphasis_follow_selection
                (ProperFleetMap.clickFarm txPanhandle ProperFleetMap.init)
                (ProperFleetMap.reachable_click _ _ txPanhandle_in
                   ProperFleetMap.reachable_init)) as [_ H].
  simpl in H. destruct H as (L & HL & Hid & _ & _ & ->).
  f_equal. apply windFarms_id_inj; [done | apply txPanhandle_in | done].
Defined.

(** ** WorkingFleetMap *)

Section WorkingFleetMapFacts.

Import WorkingFleetMap.

Lemma restyle_lookup (f : string -> bool) (markers : gmap string Icon) (key : string) :
  restyle f markers !! key =
    (fun old => match findFarm (Some key) with
                | None => old
                | Some farm => farmIcon farm (f key)
                end) <$> markers !! key.
Proof.
  unfold restyle. rewrite map_lookup_imap.
  destruct (markers !! key); simpl; [|done].
  by destruct (findFarm (Some key)).
Qed.

Lemma farmIcon_emphasized (farm : WindFarm) (b : bool) :
  emphasized (farmIcon farm b) = b.
Proof. by destruct b. Qed.

(** After a restyling, the marker of a farm is emphasised exactly when the
    loop's test holds for its key. *)
Lemma restyle_emphasized (f : string -> bool) (markers : gmap string Icon)
    (key : string) (icon : Icon) :
  restyle f markers !! key = Some icon ->
  is_Some (findFarm (Some key)) ->
  emphasized icon = f key.
Proof.
  rewrite restyle_lookup. intros H [farm Hf]. rewrite Hf in H.
  destruct (markers !! key); simpl in H; [|done].
  inversion H. apply farmIcon_emphasized.
Qed.

Lemma handleFarmClick_selectedFarm (seen : option string) (farmId : string)
    (la ln : Q) (st : State) :
  selectedFarm (handleFarmClick seen farmId la ln st)
  = if JS.strictEq farmId seen then None else Some farmId.
Proof.
  unfold handleFarmClick.
  destruct (mapRef st); [|done]. by destruct (JS.strictEq farmId seen).
Qed.

Lemma handleFarmClick_mapRef (seen : option string) (farmId : string)
    (la ln : Q) (st : State) :
  mapRef (handleFarmClick seen farmId la ln st)
  = (fun _ => if JS.strictEq farmId seen
              then {| center := overviewCenter; zoom := overviewZoom |}
              else {| center := (la, ln); zoom := farmZoom |}) <$> mapRef st.
Proof.
  unfold handleFarmClick.
  destruct (mapRef st); [|done]. by destruct (JS.strictEq farmId seen).
Qed.

Lemma handleFarmClick_markersRef (seen : option string) (farmId : string)
    (la ln : Q) (st : State) (key : string) (icon : Icon) :
  is_Some (mapRef st) ->
  markersRef (handleFarmClick seen farmId la ln st) !! key = Some icon ->
  is_Some (findFarm (Some key)) ->
  emphasized icon
  = negb (JS.strictEq farmId seen) && bool_decide (key = farmId).
Proof.
  intros [m Hm]. unfold handleFarmClick. rewrite Hm.
  destruct (JS.strictEq farmId seen); simpl; intros H Hk.
  - by rewrite (restyle_emphasized _ _ _ _ H Hk).
  - by rewrite (restyle_emphasized _ _ _ _ H Hk).
Qed.

(** The marker listeners keep the first render's handler: a marker click
    never clears the selection, however often it is repeated. *)
Lemma clickMarker_never_clears (farm : WindFarm) (st : State) :
  selectedFarm (clickMarker farm st) = Some (id farm) /\
  selectedFarm (clickMarker farm (clickMarker farm st)) = Some (id farm).
Proof.
  unfold clickMarker. by rewrite !handleFarmClick_selectedFarm, strictEq_None.
Qed.

(** The mount effect opens the map on the overview and stores one
    default-styled marker per location. *)
Lemma mount_init :
  mapRef (mount init)
  = Some {| center := overviewCenter; zoom := overviewZoom |} /\
  forall farm, farm ∈ windFarms ->
    markersRef (mount init) !! id farm = Some (farmIcon farm false).
Proof.
  split; [reflexivity|].
  apply (windFarms_cases
           (fun farm => markersRef (mount init) !! id farm
                        = Some (farmIcon farm false)));
    by vm_compute.
Qed.

End WorkingFleetMapFacts.

(** C3, as stated, is false: with "tx-panhandle" selected, toggling
    "ia-corn" twice ends with nothing selected, not with the selection the
    calls started from. *)
Lemma toggle_twice_counterexample :
  iaCorn ∈ windFarms /\
  ProperFleetMap.reachable
    (ProperFleetMap.clickFarm txPanhandle ProperFleetMap.init) /\
  ProperFleetMap.selectedFarm
    (ProperFleetMap.clickFarm txPanhandle ProperFleetMap.init)
  = Some "tx-panhandle" /\
  ProperFleetMap.selectedFarm
    (ProperFleetMap.clickFarm iaCorn
       (ProperFleetMap.clickFarm iaCorn
          (ProperFleetMap.clickFarm txPanhandle ProperFleetMap.init)))
  = None /\
  ProperFleetMap.selectedFarm
    (ProperFleetMap.clickFarm iaCorn
       (ProperFleetMap.clickFarm iaCorn
          (ProperFleetMap.clickFarm txPanhandle ProperFleetMap.init)))
  <> ProperFleetMap.selectedFarm
       (ProperFleetMap.clickFarm txPanhandle ProperFleetMap.init).
Proof.
  repeat split; try reflexivity.
  - apply iaCorn_in.
  - apply ProperFleetMap.reachable_click;
      [apply txPanhandle_in | apply ProperFleetMap.reachable_init].
  - discriminate.
Qed.

(** C3 (amended): for every location L of the set, two successive toggles
    of L return [selectedFarm] to its value before the calls whenever that
    value was none or L's id, and from the unselected state the view is the
    overview again; from a state in which another location is selected the
    two calls end unselected on the overview.  This holds for the handler of
    [ProperFleetMap] and for the card handler of [WorkingFleetMap] (there
    the view is the mounted Leaflet map, and after the two calls every
    location's marker has the default style). *)
Theorem toggle_twice_restores (L : WindFarm) :
  L ∈ windFarms ->
  (forall st : ProperFleetMap.State,
     let st2 := ProperFleetMap.clickFarm L (ProperFleetMap.clickFarm L st) in
     (ProperFleetMap.selectedFarm st = None \/
      ProperFleetMap.selectedFarm st = Some (id L) ->
      ProperFleetMap.selectedFarm st2 = ProperFleetMap.selectedFarm st) /\
     (ProperFleetMap.selectedFarm st = None ->
      ProperFleetMap.mapCenter st2 = overviewCenter /\
      ProperFleetMap.mapZoom st2 = overviewZoom) /\
     (ProperFleetMap.selectedFarm st <> Some (id L) ->
      st2 = ProperFleetMap.init)) /\
  (forall st : WorkingFleetMap.State,
     let st2 := WorkingFleetMap.clickCard L (WorkingFleetMap.clickCard L st) in
     (WorkingFleetMap.selectedFarm st = None \/
      WorkingFleetMap.selectedFarm st = Some (id L) ->
      WorkingFleetMap.selectedFarm st2 = WorkingFleetMap.selectedFarm st) /\
     (WorkingFleetMap.selectedFarm st <> Some (id L) ->
      is_Some (WorkingFleetMap.mapRef st) ->
      WorkingFleetMap.selectedFarm st2 = None /\
      WorkingFleetMap.mapRef st2
      = Some {| WorkingFleetMap.center := overviewCenter;
                WorkingFleetMap.zoom := overviewZoom |} /\
      forall key icon,
        WorkingFleetMap.markersRef st2 !! key = Some icon ->
        is_Some (findFarm (Some key)) ->
        emphasized icon = false)).
Proof.
  intros _. split.
  - intros st st2. subst st2. unfold ProperFleetMap.clickFarm.
    destruct (handleFarmClick_cases (id L) (lat L) (lng L) st)
      as [[Hsel ->]|[Hsel ->]].
    + rewrite handleFarmClick_select by done. simpl.
      repeat split; congruence.
    + rewrite handleFarmClick_clear by done. simpl.
      repeat split; try done. intros [H|H]; congruence.
  - intros st st2. split.
    + subst st2. unfold WorkingFleetMap.clickCard.
      rewrite !handleFarmClick_selectedFarm.
      destruct (JS.strictEq (id L) (WorkingFleetMap.selectedFarm st)) eqn:Heq.
      * apply strictEq_true in Heq. rewrite strictEq_None. congruence.
      * apply strictEq_false in Heq. rewrite strictEq_refl.
        intros [H|H]; congruence.
    + intros Hne%strictEq_false Hmap.
      set (st1 := WorkingFleetMap.clickCard L st).
      assert (WorkingFleetMap.selectedFarm st1 = Some (id L)) as Hsel1.
      { unfold st1, WorkingFleetMap.clickCard.
        by rewrite handleFarmClick_selectedFarm, Hne. }
      assert (is_Some (WorkingFleetMap.mapRef st1)) as Hmap1.
      { unfold st1, WorkingFleetMap.clickCard. rewrite handleFarmClick_mapRef.
        destruct Hmap as [m ->]. by eexists. }
      subst st2. fold st1. unfold WorkingFleetMap.clickCard at 1 2 3.
      rewrite handleFarmClick_selectedFarm, handleFarmClick_mapRef, Hsel1.
      rewrite strictEq_refl. split; [done|]. split.
      * destruct Hmap1 as [m ->]. done.
      * intros key icon Hk Hfarm.
        rewrite (handleFarmClick_markersRef _ _ _ _ _ _ _ Hmap1 Hk Hfarm).
        by rewrite strictEq_refl.
Qed.

Lemma toggle_twice_restores_witness :
  ProperFleetMap.clickFarm txPanhandle
    (ProperFleetMap.clickFarm txPanhandle ProperFleetMap.init)
  = ProperFleetMap.init.
Proof.
  refine (proj2 (proj2 (proj1 (toggle_twice_restores txPanhandle txPanhandle_in)
                          ProperFleetMap.init)) _).
  simpl. discriminate.
Defined.

(** C7, as stated, is false: the handler does not look the id up.  From the
    first render, a call with the unknown id "atlantis" selects it and moves
    the view to the coordinates that came with it. *)
Lemma unknown_id_counterexample :
  ("atlantis" ∉ map id windFarms) /\
  ProperFleetMap.handleFarmClick "atlantis" 0 0 ProperFleetMap.init
  = {| ProperFleetMap.selectedFarm := Some "atlantis";
       ProperFleetMap.mapCenter := (0, 0)%Q;
       ProperFleetMap.mapZoom := 7 |} /\
  ProperFleetMap.handleFarmClick "atlantis" 0 0 ProperFleetMap.init
  <> ProperFleetMap.init.
Proof.
  split; [apply atlantis_unknown|]. split; [reflexivity|]. discriminate.
Qed.

(** C7 (amended): a call of the handler with an id that is not in the
    location set raises no error (the handler is a total function of the
    state) and leaves no marker emphasised and no location's details shown,
    but it changes the state: the id becomes [selectedFarm] and the view
    moves to the coordinates passed with it at the zoomed-in level, or, if
    that id was already selected, the selection is cleared and the view is
    the overview.  The same holds for the handler of [WorkingFleetMap] on its
    mounted map, where every marker of a location is restyled to the default
    variant. *)
Theorem unknown_id_is_selected (farmId : string) (la ln : Q) :
  farmId ∉ map id windFarms ->
  (forall st : ProperFleetMap.State,
     let st' := ProperFleetMap.handleFarmClick farmId la ln st in
     (ProperFleetMap.selectedFarm st <> Some farmId ->
      st' = {| ProperFleetMap.selectedFarm := Some farmId;
               ProperFleetMap.mapCenter := (la, ln);
               ProperFleetMap.mapZoom := farmZoom |}) /\
     (ProperFleetMap.selectedFarm st = Some farmId ->
      st' = ProperFleetMap.init) /\
     ProperFleetMap.emphasizedFarms st' = [] /\
     ProperFleetMap.selectedFarmData st' = None) /\
  (forall st : WorkingFleetMap.State,
     let st' := WorkingFleetMap.handleFarmClick
                  (WorkingFleetMap.selectedFarm st) farmId la ln st in
     (WorkingFleetMap.selectedFarm st <> Some farmId ->
      WorkingFleetMap.selectedFarm st' = Some farmId /\
      (is_Some (WorkingFleetMap.mapRef st) ->
       WorkingFleetMap.mapRef st'
       = Some {| WorkingFleetMap.center := (la, ln);
                 WorkingFleetMap.zoom := farmZoom |})) /\
     (WorkingFleetMap.selectedFarm st = Some farmId ->
      WorkingFleetMap.selectedFarm st' = None /\
      (is_Some (WorkingFleetMap.mapRef st) ->
       WorkingFleetMap.mapRef st'
       = Some {| WorkingFleetMap.center := overviewCenter;
                 WorkingFleetMap.zoom := overviewZoom |})) /\
     (is_Some (WorkingFleetMap.mapRef st) ->
      forall key icon,
        WorkingFleetMap.markersRef st' !! key = Some icon ->
        is_Some (findFarm (Some key)) ->
        emphasized icon = false)).
Proof.
  intros Hunknown. apply findFarm_unknown in Hunknown as Hfind. split.
  - intros st st'. subst st'.
    destruct (handleFarmClick_cases farmId la ln st) as [[Hsel ->]|[Hsel ->]].
    + repeat split; try done.
    + repeat split; try done.
      * by apply emphasizedFarms_unknown.
  - intros st st'. subst st'.
    rewrite handleFarmClick_selectedFarm, handleFarmClick_mapRef.
    repeat split.
    + apply strictEq_false in H. by rewrite H.
    + apply strictEq_false in H. rewrite H. by intros [m ->].
    + apply strictEq_true in H. by rewrite H.
    + apply strictEq_true in H. rewrite H. by intros [m ->].
    + intros Hm key icon Hk Hfarm.
      rewrite (handleFarmClick_markersRef _ _ _ _ _ _ _ Hm Hk Hfarm).
      destruct (JS.strictEq farmId (WorkingFleetMap.selectedFarm st)); [done|].
      simpl. apply bool_decide_eq_false. intros ->.
      rewrite Hfind in Hfarm. by destruct Hfarm.
Qed.

Lemma unknown_id_is_selected_witness :
  ProperFleetMap.handleFarmClick "atlantis" 0 0 ProperFleetMap.init
  = {| ProperFleetMap.selectedFarm := Some "atlantis";
       ProperFleetMap.mapCenter := (0, 0)%Q;
       ProperFleetMap.mapZoom := farmZoom |}.
Proof.
  refine (proj1 (proj1 (unknown_id_is_selected "atlantis" 0 0 atlantis_unknown)
                   ProperFleetMap.init) _).
  simpl. discriminate.
Defined.

(** ** GenieChat *)

Section GenieChatFacts.

Import GenieChat.

Lemma sendMessage_rejected (idNow dateNow : Z) (st : State) :
  JS.whitespaceOnly (input st) = true \/ isLoading st = true ->
  sendMessage idNow dateNow st = (st, None).
Proof.
  intros H. unfold sendMessage. rewrite truthy_trim, negb_involutive.
  destruct H as [-> | ->]; [done|]. by rewrite orb_true_r.
Qed.

Lemma sendMessage_accepted (idNow dateNow : Z) (st : State) :
  JS.whitespaceOnly (input st) = false -> isLoading st = false ->
  sendMessage idNow dateNow st =
    ({| messages := messages st ++ [newUserMessage idNow dateNow (input st) sending];
        input := "";
        isLoading := true;
        conversationId := conversationId st;
        error := None;
        showSqlFor := showSqlFor st |},
     Some ({| Req.content := JS.trim (input st);
              Req.conversation_id := conversationId st |},
           {| userMessage := newUserMessage idNow dateNow (input st) sending;
              conversationIdSeen := conversationId st |})).
Proof.
  intros Hw Hl. unfold sendMessage. rewrite truthy_trim, Hw, Hl. reflexivity.
Qed.

Lemma settle_success (p : Pending) (o : FetchOutcome) (now : Z) (d : Resp.t)
    (st : State) :
  succeeds o = Some d ->
  snd (settle p o now st) =
    {| messages := JS.slice_0_m1 (messages st)
                   ++ [withStatus (userMessage p) sent; newAssistantMessage d now];
       input := input st;
       isLoading := false;
       conversationId :=
         if negb (JS.truthyOpt (conversationIdSeen p))
            && JS.truthyOpt (Resp.conversation_id d)
         then Resp.conversation_id d else conversationId st;
       error := error st;
       showSqlFor := showSqlFor st |}.
Proof.
  destruct o as [|[] [| |d']]; try discriminate. intros [= ->].
  unfold settle, tryCatchFinally, mbind, eff_bind, bind. simpl.
  destruct (negb (JS.truthyOpt (conversationIdSeen p))
            && JS.truthyOpt (Resp.conversation_id d)); reflexivity.
Qed.

Lemma settle_failure (p : Pending) (o : FetchOutcome) (now : Z) (st : State) :
  succeeds o = None ->
  snd (settle p o now st) =
    {| messages := JS.slice_0_m1 (messages st) ++ [withStatus (userMessage p) failed];
       input := input st;
       isLoading := false;
       conversationId := conversationId st;
       error := Some failureBanner;
       showSqlFor := showSqlFor st |}.
Proof.
  destruct o as [|[] [| |d']]; try discriminate; reflexivity.
Qed.

(** A settled call never lets an exception escape: the [catch] block
    handles every one and neither it nor [finally] throws. *)
Lemma settle_never_throws (p : Pending) (o : FetchOutcome) (now : Z) (st : State) :
  fst (settle p o now st) = inr tt.
Proof.
  destruct o as [|[] [| |d]]; try reflexivity.
  unfold settle, tryCatchFinally, mbind, eff_bind, bind. simpl.
  destruct (negb (JS.truthyOpt (conversationIdSeen p))
            && JS.truthyOpt (Resp.conversation_id d)); reflexivity.
Qed.

Lemma run_app (evs1 evs2 : list Event) (w : World) :
  run (evs1 ++ evs2) w = run evs2 (run evs1 w).
Proof. unfold run. apply fold_left_app. Qed.

Lemma run_cons (e : Event) (evs : list Event) (w : World) :
  run (e :: evs) w = run evs (step e w).
Proof. reflexivity. Qed.

(** While a request is pending, events other than its settling touch only
    the input field and the reveal-set. *)
Lemma step_while_loading (e : Event) (w : World) :
  isSettle e = false -> isLoading (chat w) = true ->
  let w' := step e w in
  messages (chat w') = messages (chat w) /\
  isLoading (chat w') = true /\
  conversationId (chat w') = conversationId (chat w) /\
  error (chat w') = error (chat w) /\
  inflight w' = inflight w /\
  requests w' = requests w.
Proof.
  intros He Hl. destruct e as [a b| | |]; try discriminate; simpl.
  - rewrite sendMessage_rejected by auto. done.
  - done.
  - done.
Qed.

Lemma run_while_loading (evs : list Event) (w : World) :
  forallb (fun e => negb (isSettle e)) evs = true ->
  isLoading (chat w) = true ->
  let w' := run evs w in
  messages (chat w') = messages (chat w) /\
  isLoading (chat w') = true /\
  conversationId (chat w') = conversationId (chat w) /\
  error (chat w') = error (chat w) /\
  inflight w' = inflight w /\
  requests w' = requests w.
Proof.
  revert w. induction evs as [|e evs IH]; intros w Hq Hl; [done|].
  simpl in Hq. apply andb_true_iff in Hq as [He Hq].
  apply negb_true_iff in He.
  destruct (step_while_loading e w He Hl) as (Hm & Hl' & Hc & Herr & Hi & Hr).
  cbv zeta in *. rewrite run_cons.
  destruct (IH (step e w) Hq Hl') as (-> & -> & -> & -> & -> & ->). done.
Qed.

Lemma step_send_accepted (idNow dateNow : Z) (w : World) :
  JS.whitespaceOnly (input (chat w)) = false -> isLoading (chat w) = false ->
  step (EvSend idNow dateNow) w =
    {| chat :=
         {| messages := messages (chat w)
                        ++ [newUserMessage idNow dateNow (input (chat w)) sending];
            input := "";
            isLoading := true;
            conversationId := conversationId (chat w);
            error := None;
            showSqlFor := showSqlFor (chat w) |};
       inflight := inflight w
                   ++ [{| userMessage :=
                            newUserMessage idNow dateNow (input (chat w)) sending;
                          conversationIdSeen := conversationId (chat w) |}];
       requests := requests w
                   ++ [{| Req.content := JS.trim (input (chat w));
                          Req.conversation_id := conversationId (chat w) |}] |}.
Proof.
  intros Hw Hl. simpl. by rewrite (sendMessage_accepted _ _ _ Hw Hl).
Qed.

Lemma step_send_rejected (idNow dateNow : Z) (w : World) :
  JS.whitespaceOnly (input (chat w)) = true \/ isLoading (chat w) = true ->
  step (EvSend idNow dateNow) w = w.
Proof.
  intros H. simpl. rewrite (sendMessage_rejected _ _ _ H). by destruct w.
Qed.

Lemma step_settle_head (p : Pending) (o : FetchOutcome) (now : Z) (w : World) :
  inflight w = [p] ->
  step (EvSettle 0 o now) w =
    {| chat := snd (settle p o now (chat w)); inflight := []; requests := requests w |}.
Proof. intros H. simpl. by rewrite H. Qed.

Lemma trim_nonempty (s : string) :
  JS.trim s <> "" <-> JS.whitespaceOnly s = false.
Proof.
  rewrite trim_empty. by destruct (JS.whitespaceOnly s).
Qed.

(** Membership in the set the updater of [toggleSqlVisibility] returns. *)
Lemma toggled_elem (messageId : string) (shown : gset string) (x : string) :
  x ∈ (if bool_decide (messageId ∈ shown)
       then shown ∖ {[ messageId ]} else shown ∪ {[ messageId ]})
  <-> if decide (x = messageId) then x ∉ shown else x ∈ shown.
Proof.
  destruct (bool_decide (messageId ∈ shown)) eqn:Hmem.
  - apply bool_decide_eq_true in Hmem.
    rewrite elem_of_difference, elem_of_singleton.
    destruct (decide (x = messageId)) as [->|Hne]; tauto.
  - apply bool_decide_eq_false in Hmem.
    rewrite elem_of_union, elem_of_singleton.
    destruct (decide (x = messageId)) as [->|Hne]; tauto.
Qed.

Lemma toggled_twice (messageId : string) (shown : gset string) :
  let once := if bool_decide (messageId ∈ shown)
              then shown ∖ {[ messageId ]} else shown ∪ {[ messageId ]} in
  (if bool_decide (messageId ∈ once)
   then once ∖ {[ messageId ]} else once ∪ {[ messageId ]}) = shown.
Proof.
  simpl. destruct (bool_decide (messageId ∈ shown)) eqn:Hmem.
  - apply bool_decide_eq_true in Hmem.
    rewrite bool_decide_eq_false_2.
    + apply set_eq. intros x.
      rewrite elem_of_union, elem_of_difference, elem_of_singleton.
      destruct (decide (x = messageId)) as [->|Hne]; tauto.
    + rewrite elem_of_difference, elem_of_singleton. tauto.
  - apply bool_decide_eq_false in Hmem.
    rewrite bool_decide_eq_true_2.
    + apply set_eq. intros x.
      rewrite elem_of_difference, elem_of_union, elem_of_singleton.
      destruct (decide (x = messageId)) as [->|Hne]; tauto.
    + rewrite elem_of_union, elem_of_singleton. tauto.
Qed.

End GenieChatFacts.

(** C1: a call of [sendMessage] with a non-empty trimmed text while no
    request is pending, whose request then succeeds with the response [d],
    ends with exactly two more messages (the user message, now [sent],
    followed by one assistant message built from [d]), with the
    conversation id the response carries adopted if none was set (and a set
    one kept), and with [isLoading] false and no request in flight.  Edits of
    the input, toggles and further send attempts may come between the call
    and the response. *)
Theorem sendMessage_success (w : GenieChat.World) (idNow dateNow now : Z)
    (mid : list GenieChat.Event) (o : GenieChat.FetchOutcome) (d : GenieChat.Resp.t) :
  GenieChat.inflight w = [] ->
  GenieChat.isLoading (GenieChat.chat w) = false ->
  JS.trim (GenieChat.input (GenieChat.chat w)) <> "" ->
  forallb (fun e => negb (GenieChat.isSettle e)) mid = true ->
  GenieChat.succeeds o = Some d ->
  let st := GenieChat.chat w in
  let w' := GenieChat.run
              (GenieChat.EvSend idNow dateNow :: mid ++ [GenieChat.EvSettle 0 o now]) w in
  let st' := GenieChat.chat w' in
  GenieChat.messages st'
  = GenieChat.messages st
    ++ [GenieChat.newUserMessage idNow dateNow (GenieChat.input st) GenieChat.sent;
        GenieChat.newAssistantMessage d now] /\
  length (GenieChat.messages st') = (length (GenieChat.messages st) + 2)%nat /\
  (GenieChat.conversationId st = None ->
   GenieChat.conversationId st' = GenieChat.returnedConversationId d) /\
  (JS.truthyOpt (GenieChat.conversationId st) = true ->
   GenieChat.conversationId st' = GenieChat.conversationId st) /\
  GenieChat.isLoading st' = false /\
  GenieChat.inflight w' = [] /\
  GenieChat.requests w'
  = GenieChat.requests w
    ++ [{| GenieChat.Req.content := JS.trim (GenieChat.input st);
           GenieChat.Req.conversation_id := GenieChat.conversationId st |}].
Proof.
  intros Hin Hl Htrim Hmid Hok st w' st'. subst st w' st'.
  apply trim_nonempty in Htrim.
  rewrite run_cons, run_app, (step_send_accepted _ _ _ Htrim Hl), Hin.
  match goal with |- context [GenieChat.run mid ?w1] => set (w1' := w1) end.
  destruct (run_while_loading mid w1' Hmid eq_refl)
    as (Hm & Hl' & Hc & Herr & Hi & Hr).
  rewrite run_cons, (step_settle_head _ _ _ _ Hi). simpl.
  rewrite (settle_success _ _ _ _ _ Hok). simpl. rewrite Hm, Hc, Hr. simpl.
  rewrite slice_0_m1_snoc. repeat split.
  - rewrite length_app. simpl. lia.
  - intros ->. reflexivity.
  - intros ->. reflexivity.
Qed.

Lemma sendMessage_success_witness :
  length (GenieChat.messages (GenieChat.chat GenieChat.sampleSuccess)) = 3%nat /\
  GenieChat.conversationId (GenieChat.chat GenieChat.sampleSuccess) = Some "c1" /\
  GenieChat.isLoading (GenieChat.chat GenieChat.sampleSuccess) = false.
Proof.
  assert (JS.trim (GenieChat.input (GenieChat.chat GenieChat.sampleWorld)) <> "")
    as Htrim by (vm_compute; discriminate).
  destruct (sendMessage_success GenieChat.sampleWorld 1000 1001 2000 []
              (GenieChat.Resolved true (GenieChat.JsonObject GenieChat.sampleResponse))
              GenieChat.sampleResponse
              eq_refl eq_refl Htrim eq_refl eq_refl)
    as (_ & Hlen & Hadopt & _ & Hload & _).
  split; [exact Hlen|]. split; [exact (Hadopt eq_refl) | exact Hload].
Defined.

(** C2: a call of [sendMessage] with a non-empty trimmed text while no
    request is pending, whose request then fails (the transport rejects, the
    response is not a success, or its body is no JSON object), ends with
    exactly one more message, the user message with status ['error'], and no
    assistant message; [error] holds the non-empty banner text, the
    conversation id is untouched and [isLoading] is false. *)
Theorem sendMessage_failure (w : GenieChat.World) (idNow dateNow now : Z)
    (mid : list GenieChat.Event) (o : GenieChat.FetchOutcome) :
  GenieChat.inflight w = [] ->
  GenieChat.isLoading (GenieChat.chat w) = false ->
  JS.trim (GenieChat.input (GenieChat.chat w)) <> "" ->
  forallb (fun e => negb (GenieChat.isSettle e)) mid = true ->
  GenieChat.succeeds o = None ->
  let st := GenieChat.chat w in
  let w' := GenieChat.run
              (GenieChat.EvSend idNow dateNow :: mid ++ [GenieChat.EvSettle 0 o now]) w in
  let st' := GenieChat.chat w' in
  GenieChat.messages st'
  = GenieChat.messages st
    ++ [GenieChat.newUserMessage idNow dateNow (GenieChat.input st) GenieChat.failed] /\
  length (GenieChat.messages st') = (length (GenieChat.messages st) + 1)%nat /\
  GenieChat.error st' = Some GenieChat.failureBanner /\
  GenieChat.failureBanner <> "" /\
  GenieChat.conversationId st' = GenieChat.conversationId st /\
  GenieChat.isLoading st' = false /\
  GenieChat.inflight w' = [].
Proof.
  intros Hin Hl Htrim Hmid Hko st w' st'. subst st w' st'.
  apply trim_nonempty in Htrim.
  rewrite run_cons, run_app, (step_send_accepted _ _ _ Htrim Hl), Hin.
  match goal with |- context [GenieChat.run mid ?w1] => set (w1' := w1) end.
  destruct (run_while_loading mid w1' Hmid eq_refl)
    as (Hm & Hl' & Hc & Herr & Hi & Hr).
  rewrite run_cons, (step_settle_head _ _ _ _ Hi). simpl.
  rewrite (settle_failure _ _ _ _ Hko). simpl. rewrite Hm, Hc. simpl.
  rewrite slice_0_m1_snoc. repeat split.
  - rewrite length_app. simpl. lia.
  - discriminate.
Qed.

Lemma sendMessage_failure_witness :
  length (GenieChat.messages (GenieChat.chat GenieChat.sampleFailure)) = 2%nat /\
  GenieChat.error (GenieChat.chat GenieChat.sampleFailure)
  = Some GenieChat.failureBanner /\
  GenieChat.isLoading (GenieChat.chat GenieChat.sampleFailure) = false.
Proof.
  assert (JS.trim (GenieChat.input (GenieChat.chat GenieChat.sampleWorld)) <> "")
    as Htrim by (vm_compute; discriminate).
  destruct (sendMessage_failure GenieChat.sampleWorld 1000 1001 2000 []
              GenieChat.Rejected eq_refl eq_refl Htrim eq_refl eq_refl)
    as (_ & Hlen & Herr & _ & _ & Hload & _).
  split; [exact Hlen|]. split; [exact Herr | exact Hload].
Defined.

(** C9: one call of [toggleSqlVisibility] flips the membership of the given
    id in the reveal-set, whether or not a message has that id, and changes
    nothing else: the membership of every other id and the rest of the
    state stay as they were; a second call with the same id restores the
    state, hence the original membership of the id. *)
Theorem toggleSqlVisibility_flips (messageId : string) (st : GenieChat.State) :
  let st' := GenieChat.toggleSqlVisibility messageId st in
  (messageId ∈ GenieChat.showSqlFor st' <-> messageId ∉ GenieChat.showSqlFor st) /\
  (forall other, other <> messageId ->
     other ∈ GenieChat.showSqlFor st' <-> other ∈ GenieChat.showSqlFor st) /\
  GenieChat.messages st' = GenieChat.messages st /\
  GenieChat.input st' = GenieChat.input st /\
  GenieChat.isLoading st' = GenieChat.isLoading st /\
  GenieChat.conversationId st' = GenieChat.conversationId st /\
  GenieChat.error st' = GenieChat.error st /\
  GenieChat.toggleSqlVisibility messageId st' = st.
Proof.
  destruct st as [ms inp ld cid err shown]. simpl.
  pose proof (toggled_elem messageId shown) as Hflip.
  split; [|split].
  - rewrite Hflip. by rewrite decide_True.
  - intros other Hne. rewrite Hflip. by rewrite decide_False.
  - repeat split. unfold GenieChat.toggleSqlVisibility, GenieChat.setShowSqlFor.
    simpl. f_equal. apply toggled_twice.
Qed.

(** *** The invariant of the conversation *)

Section GenieChatInvariant.

Import GenieChat.

Lemma settle_cases (p : Pending) (o : FetchOutcome) (now : Z) (st : State) :
  (exists d, succeeds o = Some d /\
     messages (snd (settle p o now st))
     = JS.slice_0_m1 (messages st)
       ++ [withStatus (userMessage p) sent; newAssistantMessage d now]) \/
  (succeeds o = None /\
     messages (snd (settle p o now st))
     = JS.slice_0_m1 (messages st) ++ [withStatus (userMessage p) failed]).
Proof.
  destruct (succeeds o) as [d|] eqn:Ho.
  - left. exists d. split; [done|]. by rewrite (settle_success _ _ _ _ _ Ho).
  - right. split; [done|]. by rewrite (settle_failure _ _ _ _ Ho).
Qed.

Lemma settle_isLoading (p : Pending) (o : FetchOutcome) (now : Z) (st : State) :
  isLoading (snd (settle p o now st)) = false.
Proof.
  destruct (succeeds o) as [d|] eqn:Ho.
  - by rewrite (settle_success _ _ _ _ _ Ho).
  - by rewrite (settle_failure _ _ _ _ Ho).
Qed.

Lemma consistent_start (t0 : Z) : consistent t0 (start t0).
Proof. split; [done|]. exists []. by split. Qed.

Lemma consistent_step (t0 : Z) (e : Event) (w : World) :
  consistent t0 w -> consistent t0 (step e w).
Proof.
  unfold consistent. intros Hc.
  destruct e as [idNow dateNow|k o now|messageId|value].
  - (* sendMessage *)
    destruct (JS.whitespaceOnly (input (chat w))) eqn:Hw;
      [by rewrite step_send_rejected by auto|].
    destruct (decide (isLoading (chat w) = true)) as [Hl|Hl];
      [by rewrite step_send_rejected by auto|].
    apply not_true_is_false in Hl.
    rewrite (step_send_accepted _ _ _ Hw Hl). simpl.
    destruct (inflight w) as [|p [|q l]]; simpl.
    + destruct Hc as (_ & rest & -> & Hrest). repeat split. by exists rest.
    + destruct Hc as (Hl' & _). congruence.
    + done.
  - (* a request settles *)
    destruct (inflight w) as [|p [|q l]] eqn:Hin; [|destruct k as [|k]|done].
    + simpl. rewrite Hin. simpl. by rewrite Hin.
    + rewrite (step_settle_head _ _ _ _ Hin). simpl.
      destruct Hc as (_ & _ & _ & rest & Hm & Hrest).
      split; [apply settle_isLoading|].
      destruct (settle_cases p o now (chat w)) as [(d & _ & ->)|(_ & ->)];
        rewrite Hm, slice_0_m1_snoc.
      * exists (rest ++ [withStatus (userMessage p) sent; newAssistantMessage d now]).
        split; [done|]. apply Forall_app. split; [done|].
        repeat constructor; discriminate.
      * exists (rest ++ [withStatus (userMessage p) failed]).
        split; [done|]. apply Forall_app. split; [done|].
        repeat constructor; discriminate.
    + simpl. rewrite Hin. simpl. by rewrite Hin.
  - (* toggleSqlVisibility *)
    simpl. by destruct (inflight w) as [|p [|q l]].
  - (* the input field *)
    simpl. by destruct (inflight w) as [|p [|q l]].
Qed.

Lemma consistent_run (t0 : Z) (evs : list Event) (w : World) :
  consistent t0 w -> consistent t0 (run evs w).
Proof.
  revert w. induction evs as [|e evs IH]; intros w Hc; [done|].
  rewrite run_cons. by apply IH, consistent_step.
Qed.

Lemma consistent_reachable (t0 : Z) (evs : list Event) :
  consistent t0 (run evs (start t0)).
Proof. apply consistent_run, consistent_start. Qed.

Lemma consistent_greeting (t0 : Z) (w : World) :
  consistent t0 w -> exists rest, messages (chat w) = greeting t0 :: rest.
Proof.
  unfold consistent. destruct (inflight w) as [|p [|q l]]; [| |done].
  - intros (_ & rest & -> & _). eauto.
  - intros (_ & _ & _ & rest & -> & _). simpl. eauto.
Qed.

Lemma consistent_inflight (t0 : Z) (w : World) :
  consistent t0 w -> (length (inflight w) <= 1)%nat.
Proof.
  unfold consistent. destruct (inflight w) as [|p [|q l]]; simpl; [lia|lia|done].
Qed.

End GenieChatInvariant.

(** C10: in every state reached from the first render, whatever the
    sequence of sends, responses (successful or failed), toggles and input
    edits, the message list is non-empty and its first element is the
    seeded greeting. *)
Theorem greeting_stays_first (t0 : Z) (evs : list GenieChat.Event) :
  let w := GenieChat.run evs (GenieChat.start t0) in
  GenieChat.messages (GenieChat.chat w) <> [] /\
  head (GenieChat.messages (GenieChat.chat w)) = Some (GenieChat.greeting t0).
Proof.
  intros w.
  destruct (consistent_greeting t0 w (consistent_reachable t0 evs)) as [rest ->].
  by split.
Qed.

(** C6: [sendMessage] changes nothing and issues no request when the input
    is empty or white space only, and likewise when a request is pending; so
    in every state reached from the first render at most one request is in
    flight. *)
Theorem sendMessage_guarded :
  (forall (w : GenieChat.World) (idNow dateNow : Z),
     JS.trim (GenieChat.input (GenieChat.chat w)) = "" \/
     GenieChat.isLoading (GenieChat.chat w) = true ->
     GenieChat.sendMessage idNow dateNow (GenieChat.chat w)
     = (GenieChat.chat w, None) /\
     GenieChat.step (GenieChat.EvSend idNow dateNow) w = w) /\
  (forall s : string,
     JS.trim s = "" <-> JS.whitespaceOnly s = true) /\
  (forall (t0 : Z) (evs : list GenieChat.Event),
     (length (GenieChat.inflight (GenieChat.run evs (GenieChat.start t0))) <= 1)%nat).
Proof.
  split; [|split].
  - intros w idNow dateNow H. rewrite trim_empty in H.
    split; [by apply sendMessage_rejected | by apply step_send_rejected].
  - apply trim_empty.
  - intros t0 evs. eapply consistent_inflight, consistent_reachable.
Qed.

Lemma sendMessage_guarded_witness :
  GenieChat.step (GenieChat.EvSend 1000 1001)
    (GenieChat.run [GenieChat.EvSetInput "   "] (GenieChat.start 0))
  = GenieChat.run [GenieChat.EvSetInput "   "] (GenieChat.start 0).
Proof.
  refine (proj2 (proj1 sendMessage_guarded
                   (GenieChat.run [GenieChat.EvSetInput "   "] (GenieChat.start 0))
                   1000 1001 _)).
  left. reflexivity.
Defined.

(** *** The message list only grows *)

Section GenieChatHistory.

Import GenieChat.

Lemma advances_refl (m : Message) : advances m m.
Proof. by left. Qed.

Lemma advances_settled (m m' : Message) :
  settled m -> advances m m' -> m' = m.
Proof. intros Hs [->|(_ & Hst & _)]; [done | by destruct Hs]. Qed.

Lemma advances_trans (m1 m2 m3 : Message) :
  advances m1 m2 -> advances m2 m3 -> advances m1 m3.
Proof.
  intros [->|(Hu & Hst & Hm)] H23; [done|].
  rewrite (advances_settled m2 m3); [right; auto | | done].
  unfold settled. destruct Hm as [->| ->]; discriminate.
Qed.

Lemma Forall2_advances_refl (l : list Message) : Forall2 advances l l.
Proof. induction l; constructor; auto using advances_refl. Qed.

Lemma Forall2_advances_trans (l1 l2 l3 : list Message) :
  Forall2 advances l1 l2 -> Forall2 advances l2 l3 -> Forall2 advances l1 l3.
Proof.
  intros H12. revert l3. induction H12 as [|a b l1 l2 Hab _ IH]; intros l3 H23.
  - by inversion H23.
  - inversion H23 as [|b' c l2' l3' Hbc Hrest]; subst.
    constructor; [by eapply advances_trans | by apply IH].
Qed.

Lemma extends_refl (l : list Message) : extends l l.
Proof.
  exists l, []. split; [by rewrite app_nil_r | apply Forall2_advances_refl].
Qed.

Lemma extends_trans (l1 l2 l3 : list Message) :
  extends l1 l2 -> extends l2 l3 -> extends l1 l3.
Proof.
  intros (k & a & -> & H1) (k' & a' & -> & H2).
  apply Forall2_app_inv_l in H2 as (k1 & k2 & Hk & _ & ->).
  exists k1, (k2 ++ a'). split; [by rewrite app_assoc|].
  by eapply Forall2_advances_trans.
Qed.

(** Appending messages, with the last stored one possibly advanced. *)
Lemma extends_last (pre added : list Message) (m m' : Message) :
  advances m m' -> extends (pre ++ [m]) (pre ++ m' :: added).
Proof.
  intros H. exists (pre ++ [m']), added. split.
  - by rewrite <- app_assoc.
  - apply Forall2_app; [apply Forall2_advances_refl|].
    constructor; [exact H | constructor].
Qed.

Lemma extends_step (t0 : Z) (e : Event) (w : World) :
  consistent t0 w -> extends (messages (chat w)) (messages (chat (step e w))).
Proof.
  intros Hc. destruct e as [idNow dateNow|k o now|messageId|value].
  - destruct (JS.whitespaceOnly (input (chat w))) eqn:Hw;
      [rewrite step_send_rejected by auto; apply extends_refl|].
    destruct (decide (isLoading (chat w) = true)) as [Hl|Hl];
      [rewrite step_send_rejected by auto; apply extends_refl|].
    apply not_true_is_false in Hl.
    rewrite (step_send_accepted _ _ _ Hw Hl). simpl.
    eexists _, _. split; [done | apply Forall2_advances_refl].
  - unfold consistent in Hc.
    destruct (inflight w) as [|p [|q l]] eqn:Hin; [|destruct k as [|k]|done].
    + simpl. rewrite Hin. apply extends_refl.
    + rewrite (step_settle_head _ _ _ _ Hin). simpl.
      destruct Hc as (_ & Hu & Hst & rest & Hm & _).
      destruct (settle_cases p o now (chat w)) as [(d & _ & ->)|(_ & ->)];
        rewrite Hm, slice_0_m1_snoc; apply extends_last; right; auto.
    + simpl. rewrite Hin. apply extends_refl.
  - apply extends_refl.
  - apply extends_refl.
Qed.

Lemma extends_run (t0 : Z) (evs : list Event) (w : World) :
  consistent t0 w -> extends (messages (chat w)) (messages (chat (run evs w))).
Proof.
  revert w. induction evs as [|e evs IH]; intros w Hc; [apply extends_refl|].
  rewrite run_cons. eapply extends_trans; [by eapply extends_step|].
  by apply IH, consistent_step.
Qed.

(** A settled message keeps its place and its contents in every extension. *)
Lemma extends_settled (l l' : list Message) (i : nat) (m : Message) :
  extends l l' -> l !! i = Some m -> settled m -> l' !! i = Some m.
Proof.
  intros (kept & added & -> & H) Hi Hs.
  destruct (Forall2_lookup_l _ _ _ _ _ H Hi) as (m' & Hk & Hadv).
  rewrite (advances_settled _ _ Hs Hadv) in Hk.
  by apply lookup_app_l_Some.
Qed.

(** In a consistent world the only message still [sending] is the last one,
    the user message of the request in flight. *)
Lemma consistent_sending (t0 : Z) (w : World) (i : nat) (m : Message) :
  consistent t0 w ->
  messages (chat w) !! i = Some m -> status m = Some sending ->
  sender m = user /\
  S i = length (messages (chat w)) /\
  exists p, inflight w = [p] /\ userMessage p = m.
Proof.
  unfold consistent. intros Hc Hi Hst.
  assert (forall rest : list Message, Forall settled rest ->
            Forall settled (greeting t0 :: rest)) as Hg.
  { intros rest Hrest. constructor; [discriminate | done]. }
  destruct (inflight w) as [|p [|q l]]; [| |done].
  - destruct Hc as (_ & rest & Hm & Hrest). rewrite Hm in Hi.
    apply Hg in Hrest. rewrite Forall_lookup in Hrest.
    by destruct (Hrest _ _ Hi).
  - destruct Hc as (_ & Hu & _ & rest & Hm & Hrest). rewrite Hm in Hi |- *.
    apply Hg in Hrest. rewrite Forall_lookup in Hrest.
    apply lookup_app_Some in Hi as [Hi|[Hlen Hi]].
    + by destruct (Hrest _ _ Hi).
    + apply list_lookup_singleton_Some in Hi as [Hz <-].
      rewrite length_app. simpl in *. split; [done|]. split; [lia | by exists p].
Qed.

End GenieChatHistory.

(** C8: along every sequence of operations from the first render the
    message list is append-only.  Between any state [w] of the run and any
    later state [w'], the messages of [w] are still there, in the same
    places and order, each either unchanged or a user message whose status
    went from ['sending'] to ['sent'] or ['error'] with every other field
    kept, and new messages come only after them; a message that is not
    ['sending'] never changes again; and the only message that can be
    ['sending'] is the last one, the user message of the request in
    flight. *)
Theorem messages_append_only (t0 : Z) (before after : list GenieChat.Event) :
  let w := GenieChat.run before (GenieChat.start t0) in
  let w' := GenieChat.run after w in
  GenieChat.extends (GenieChat.messages (GenieChat.chat w))
                    (GenieChat.messages (GenieChat.chat w')) /\
  (forall i m,
     GenieChat.messages (GenieChat.chat w) !! i = Some m ->
     GenieChat.status m <> Some GenieChat.sending ->
     GenieChat.messages (GenieChat.chat w') !! i = Some m) /\
  (forall i m,
     GenieChat.messages (GenieChat.chat w) !! i = Some m ->
     GenieChat.status m = Some GenieChat.sending ->
     GenieChat.sender m = GenieChat.user /\
     S i = length (GenieChat.messages (GenieChat.chat w)) /\
     exists p, GenieChat.inflight w = [p] /\ GenieChat.userMessage p = m).
Proof.
  intros w w'.
  pose proof (consistent_reachable t0 before) as Hc. fold w in Hc.
  pose proof (extends_run t0 after w Hc) as Hext. fold w' in Hext.
  split; [done|]. split.
  - intros i m Hi Hs. by eapply extends_settled.
  - intros i m Hi Hs. by eapply consistent_sending.
Qed.

(** ** The two scenarios of the specification *)

(** Six locations, none selected: the view is the overview; selecting
    "tx-panhandle" centres the view on it at the zoomed-in level; selecting
    it again returns to the first state. *)
Example scenario_select_tx_panhandle :
  length windFarms = 6%nat /\
  ProperFleetMap.mapZoom ProperFleetMap.init = overviewZoom /\
  ProperFleetMap.clickFarm txPanhandle ProperFleetMap.init
  = {| ProperFleetMap.selectedFarm := Some "tx-panhandle";
       ProperFleetMap.mapCenter := (35.2, -101.8)%Q;
       ProperFleetMap.mapZoom := farmZoom |} /\
  ProperFleetMap.clickFarm txPanhandle
    (ProperFleetMap.clickFarm txPanhandle ProperFleetMap.init)
  = ProperFleetMap.init.
Proof. repeat split. Qed.

(** The greeting alone, then "How many turbines?" answered with
    conversation id "c1": three messages, and the id is adopted. *)
Example scenario_how_many_turbines :
  map GenieChat.sender (GenieChat.messages (GenieChat.chat GenieChat.sampleSuccess))
  = [GenieChat.assistant; GenieChat.user; GenieChat.assistant] /\
  map GenieChat.status (GenieChat.messages (GenieChat.chat GenieChat.sampleSuccess))
  = [None; Some GenieChat.sent; None] /\
  GenieChat.conversationId (GenieChat.chat GenieChat.sampleSuccess) = Some "c1" /\
  GenieChat.requests GenieChat.sampleSuccess
  = [{| GenieChat.Req.content := "How many turbines?";
        GenieChat.Req.conversation_id := None |}].
Proof. repeat split. Qed.

(** * Further properties of the components *)

(** ** [trim] *)

Lemma trimStart_fixed (c : ascii) (s : string) :
  JS.isWhiteSpace c = false -> JS.trimStart (String c s) = String c s.
Proof. intros H. simpl. by rewrite H. Qed.

Lemma trimEnd_idempotent (s : string) :
  JS.trimEnd (JS.trimEnd s) = JS.trimEnd s.
Proof.
  induction s as [|c s IH]; simpl; [done|].
  destruct (JS.isWhiteSpace c && JS.isEmpty (JS.trimEnd s)) eqn:E; [done|].
  simpl. by rewrite IH, E.
Qed.

Lemma trim_idempotent (s : string) : JS.trim (JS.trim s) = JS.trim s.
Proof.
  unfold JS.trim. pose proof (trimStart_head s) as Hh.
  destruct (JS.trimStart s) as [|c t] eqn:Ht; [done|].
  destruct Hh as [Hc _].
  assert (JS.trimEnd (String c t) = String c (JS.trimEnd t)) as E
    by (simpl; by rewrite Hc).
  rewrite E, (trimStart_fixed _ _ Hc), <- E. apply trimEnd_idempotent.
Qed.

(** ** GenieChat: invariants of a conversation *)

Section GenieChatRuns.

Import GenieChat GenieChatView.

Lemma consistent_idle (t0 : Z) (w : World) :
  consistent t0 w -> isLoading (chat w) = false -> inflight w = [].
Proof.
  unfold consistent. destruct (inflight w) as [|p [|q l]]; [done| |done].
  intros (Hl & _) Hf. congruence.
Qed.

Lemma consistent_loading (t0 : Z) (w : World) :
  consistent t0 w -> (isLoading (chat w) = true <-> inflight w <> []).
Proof.
  unfold consistent. destruct (inflight w) as [|p [|q l]]; [| |done].
  - intros (Hl & _). rewrite Hl. split; [discriminate | done].
  - intros (Hl & _). rewrite Hl. split; [discriminate | done].
Qed.

Lemma userMessages_app (ms ms' : list Message) (i : string) (b : bool)
    (cid err : option string) (shown : gset string) :
  userMessages {| messages := ms ++ ms'; input := i; isLoading := b;
                  conversationId := cid; error := err; showSqlFor := shown |}
  = List.filter (fun m => match sender m with user => true | assistant => false end) ms
    ++ List.filter (fun m => match sender m with user => true | assistant => false end) ms'.
Proof. unfold userMessages. simpl. apply List.filter_app. Qed.

Lemma step_settle_none (k : nat) (o : FetchOutcome) (now : Z) (w : World) :
  inflight w !! k = None -> step (EvSettle k o now) w = w.
Proof. intros H. simpl. by rewrite H. Qed.

Lemma threaded_step (t0 : Z) (e : Event) (w : World) :
  consistent t0 w -> accounted w -> threaded w -> threaded (step e w).
Proof.
  intros Hc (_ & _ & Hfirst & _ & _) Ht.
  pose proof Ht as (Hne & Hreq0 & Hhead & Hseen).
  destruct e as [idNow dateNow|k o now|messageId|value].
  - destruct (JS.whitespaceOnly (input (chat w))) eqn:Hw;
      [by rewrite step_send_rejected by auto|].
    destruct (decide (isLoading (chat w) = true)) as [Hl|Hl];
      [by rewrite step_send_rejected by auto|].
    apply not_true_is_false in Hl.
    rewrite (step_send_accepted _ _ _ Hw Hl).
    rewrite (consistent_idle _ _ Hc Hl). unfold threaded. simpl.
    split; [done|]. split; [|split].
    + intros H. by apply app_eq_nil in H as [_ H].
    + destruct (requests w) as [|r0 l] eqn:Hr; simpl.
      * intros r [= <-]. simpl. by apply Hreq0.
      * intros r Hr0. by apply Hhead.
    + intros p Hp. apply list_elem_of_singleton in Hp as ->. done.
  - destruct (inflight w) as [|p [|q l]] eqn:Hin.
    + rewrite step_settle_none; [done | by rewrite Hin].
    + destruct k as [|k]; [|rewrite step_settle_none; [done | by rewrite Hin]].
      rewrite (step_settle_head _ _ _ _ Hin). unfold threaded. simpl.
      assert (requests w <> []) as Hr.
      { intros Hr. destruct (Hfirst Hr) as [Hi _]. congruence. }
      split; [|split; [done|split; [done|]]].
      * destruct (succeeds o) as [d|] eqn:Ho.
        -- rewrite (settle_success _ _ _ _ _ Ho). simpl.
           destruct (negb (JS.truthyOpt (conversationIdSeen p))
                     && JS.truthyOpt (Resp.conversation_id d)) eqn:E; [|done].
           apply andb_true_iff in E as [_ E]. intros Heq. by rewrite Heq in E.
        -- by rewrite (settle_failure _ _ _ _ Ho).
      * intros p' Hp'. by apply elem_of_nil in Hp'.
    + unfold consistent in Hc. rewrite Hin in Hc. done.
  - done.
  - done.
Qed.

Lemma accounted_step (t0 : Z) (e : Event) (w : World) :
  consistent t0 w -> accounted w -> accounted (step e w).
Proof.
  intros Hc Ha. pose proof Ha as (Hbusy & Herr & Hfirst & Huser & Hreqs).
  destruct e as [idNow dateNow|k o now|messageId|value].
  - destruct (JS.whitespaceOnly (input (chat w))) eqn:Hw;
      [by rewrite step_send_rejected by auto|].
    destruct (decide (isLoading (chat w) = true)) as [Hl|Hl];
      [by rewrite step_send_rejected by auto|].
    apply not_true_is_false in Hl.
    rewrite (step_send_accepted _ _ _ Hw Hl). unfold accounted. simpl.
    split; [done|]. split; [by left|]. split; [|split].
    + intros H. by apply app_eq_nil in H as [_ H].
    + rewrite userMessages_app. simpl.
      rewrite !map_app. simpl. by rewrite <- Huser.
    + apply Forall_app. split; [done|]. constructor; [|done]. simpl.
      split; [by apply trim_nonempty | apply trim_idempotent].
  - unfold consistent in Hc.
    destruct (inflight w) as [|p [|q l]] eqn:Hin; [| |done].
    + rewrite step_settle_none; [done | by rewrite Hin].
    + destruct k as [|k]; [|rewrite step_settle_none; [done | by rewrite Hin]].
      rewrite (step_settle_head _ _ _ _ Hin). unfold accounted. simpl.
      destruct Hc as (_ & Hu & _ & rest & Hm & _).
      assert (requests w <> []) as Hr.
      { intros Hr. destruct (Hfirst Hr) as [Hi _]. congruence. }
      destruct (succeeds o) as [d|] eqn:Ho.
      * rewrite (settle_success _ _ _ _ _ Ho). simpl.
        split; [done|]. split; [done|]. split; [done|]. split; [|done].
        rewrite <- Huser, Hm, slice_0_m1_snoc.
        rewrite userMessages_app. unfold userMessages.
        rewrite Hm, List.filter_app. simpl. rewrite Hu.
        by rewrite !map_app.
      * rewrite (settle_failure _ _ _ _ Ho). simpl.
        split; [done|]. split; [by right|]. split; [done|]. split; [|done].
        rewrite <- Huser, Hm, slice_0_m1_snoc.
        rewrite userMessages_app. unfold userMessages.
        rewrite Hm, List.filter_app. simpl. rewrite Hu.
        by rewrite !map_app.
  - done.
  - done.
Qed.

Lemma invariants_start (t0 : Z) :
  consistent t0 (start t0) /\ threaded (start t0) /\ accounted (start t0).
Proof.
  split; [apply consistent_start|]. split.
  - repeat split; try done. intros p Hp. by apply elem_of_nil in Hp.
  - repeat split; try done. by left.
Qed.

Lemma invariants_run (t0 : Z) (evs : list Event) (w : World) :
  consistent t0 w /\ threaded w /\ accounted w ->
  let w' := run evs w in
  consistent t0 w' /\ threaded w' /\ accounted w'.
Proof.
  revert w. induction evs as [|e evs IH]; intros w (Hc & Ht & Ha); [done|].
  cbv zeta. rewrite run_cons. apply IH.
  split; [by apply consistent_step|].
  split; [by eapply threaded_step | by eapply accounted_step].
Qed.

Lemma invariants_reachable (t0 : Z) (evs : list Event) :
  let w := run evs (start t0) in
  consistent t0 w /\ threaded w /\ accounted w.
Proof. apply invariants_run, invariants_start. Qed.

End GenieChatRuns.

Section GenieChatExtras.

Import GenieChat GenieChatView.

Lemma sendDisabled_true (st : State) :
  sendDisabled st = true <->
  JS.whitespaceOnly (input st) = true \/ isLoading st = true.
Proof.
  unfold sendDisabled. rewrite truthy_trim, negb_involutive.
  apply orb_true_iff.
Qed.

Lemma sendDisabled_false (st : State) :
  sendDisabled st = false <->
  JS.whitespaceOnly (input st) = false /\ isLoading st = false.
Proof.
  unfold sendDisabled. rewrite truthy_trim, negb_involutive.
  apply orb_false_iff.
Qed.

Lemma conversationId_kept (t0 : Z) (e : Event) (w : World) (c : string) :
  consistent t0 w -> threaded w ->
  conversationId (chat w) = Some c ->
  conversationId (chat (step e w)) = Some c.
Proof.
  intros Hc (Hne & _ & _ & Hseen) Hcid.
  destruct e as [idNow dateNow|k o now|messageId|value]; [| |done|done].
  - destruct (JS.whitespaceOnly (input (chat w))) eqn:Hw;
      [by rewrite step_send_rejected by auto|].
    destruct (decide (isLoading (chat w) = true)) as [Hl|Hl];
      [by rewrite step_send_rejected by auto|].
    apply not_true_is_false in Hl.
    by rewrite (step_send_accepted _ _ _ Hw Hl).
  - destruct (inflight w !! k) as [p|] eqn:Hk;
      [|by rewrite step_settle_none].
    simpl. rewrite Hk. simpl.
    assert (conversationIdSeen p = Some c) as Hp.
    { rewrite <- Hcid. apply Hseen. by eapply list_elem_of_lookup_2. }
    assert (JS.truthyOpt (conversationIdSeen p) = true) as Ht.
    { rewrite Hp. destruct c; [|done]. congruence. }
    destruct (succeeds o) as [d|] eqn:Ho.
    + rewrite (settle_success _ _ _ _ _ Ho). simpl. by rewrite Ht.
    + by rewrite (settle_failure _ _ _ _ Ho).
Qed.

(** A step issues no request or one, and that one carries the conversation
    id of the state it was issued in. *)
Lemma requests_step (e : Event) (w : World) :
  exists new,
    requests (step e w) = requests w ++ new /\
    Forall (fun r => Req.conversation_id r = conversationId (chat w)) new.
Proof.
  destruct e as [idNow dateNow|k o now|messageId|value].
  - destruct (JS.whitespaceOnly (input (chat w))) eqn:Hw;
      [exists []; by rewrite step_send_rejected, app_nil_r by auto|].
    destruct (decide (isLoading (chat w) = true)) as [Hl|Hl];
      [exists []; by rewrite step_send_rejected, app_nil_r by auto|].
    apply not_true_is_false in Hl.
    rewrite (step_send_accepted _ _ _ Hw Hl). simpl.
    eexists. split; [done|]. by repeat constructor.
  - exists []. rewrite app_nil_r. split; [|done].
    simpl. by destruct (inflight w !! k).
  - exists []. by rewrite app_nil_r.
  - exists []. by rewrite app_nil_r.
Qed.

Lemma requests_run (t0 : Z) (evs : list Event) (w : World) :
  consistent t0 w -> threaded w -> accounted w ->
  exists new,
    requests (run evs w) = requests w ++ new /\
    forall c, conversationId (chat w) = Some c ->
              Forall (fun r => Req.conversation_id r = Some c) new.
Proof.
  revert w. induction evs as [|e evs IH]; intros w Hc Ht Ha.
  - exists []. by rewrite app_nil_r.
  - rewrite run_cons.
    destruct (requests_step e w) as (new1 & Hr1 & Hf1).
    destruct (IH (step e w)) as (new2 & Hr2 & Hf2);
      [by apply consistent_step | by eapply threaded_step
      | by eapply accounted_step |].
    exists (new1 ++ new2). split; [by rewrite Hr2, Hr1, app_assoc|].
    intros c Hcid. apply Forall_app. split.
    + eapply Forall_impl; [exact Hf1|]. simpl. congruence.
    + apply Hf2. by eapply conversationId_kept.
Qed.

End GenieChatExtras.

(** X1: the send button is disabled exactly when a call of [sendMessage]
    would return at its guard; a key press issues a request exactly when
    the key is Enter, Shift is not held and the button is enabled, and does
    nothing at all otherwise. *)
Theorem send_controls_agree (w : GenieChat.World)
    (e : GenieChatView.KeyboardEvent) (idNow dateNow : Z) :
  (GenieChatView.sendDisabled (GenieChat.chat w) = true <->
   snd (GenieChat.sendMessage idNow dateNow (GenieChat.chat w)) = None) /\
  (GenieChat.requests (GenieChatView.handleKeyPress e idNow dateNow w)
   <> GenieChat.requests w <->
   GenieChatView.key e = "Enter" /\ GenieChatView.shiftKey e = false /\
   GenieChatView.sendDisabled (GenieChat.chat w) = false) /\
  (GenieChatView.submits e = false \/
   GenieChatView.sendDisabled (GenieChat.chat w) = true ->
   GenieChatView.handleKeyPress e idNow dateNow w = w).
Proof.
  assert (GenieChatView.submits e = true <->
          GenieChatView.key e = "Enter" /\ GenieChatView.shiftKey e = false) as Hsub.
  { unfold GenieChatView.submits.
    rewrite andb_true_iff, bool_decide_eq_true, negb_true_iff. done. }
  destruct (GenieChatView.sendDisabled (GenieChat.chat w)) eqn:Hd.
  - apply sendDisabled_true in Hd as Hg.
    split; [|split].
    + by rewrite (sendMessage_rejected _ _ _ Hg).
    + unfold GenieChatView.handleKeyPress.
      destruct (GenieChatView.submits e);
        rewrite ?(step_send_rejected _ _ _ Hg); split; try done;
        intros (_ & _ & ?); done.
    + intros _. unfold GenieChatView.handleKeyPress.
      destruct (GenieChatView.submits e); [|done].
      by apply step_send_rejected.
  - apply sendDisabled_false in Hd as [Hw Hl].
    split; [|split].
    + rewrite (sendMessage_accepted _ _ _ Hw Hl). simpl. split; done.
    + unfold GenieChatView.handleKeyPress.
      destruct (decide (GenieChatView.submits e = true)) as [Hs|Hs].
      * rewrite Hs, (step_send_accepted _ _ _ Hw Hl). simpl. split.
        -- intros _. apply Hsub in Hs as [? ?]. done.
        -- intros _ Heq. symmetry in Heq.
           rewrite <- (app_nil_r (GenieChat.requests w)) in Heq at 1.
           apply app_inv_head in Heq. discriminate.
      * split.
        -- apply not_true_is_false in Hs. by rewrite Hs.
        -- intros (Hk & Hsh & _). destruct Hs. by apply Hsub.
    + intros [Hs|Hs]; [|done]. unfold GenieChatView.handleKeyPress. by rewrite Hs.
Qed.

(** X2: every request issued along a run from the first render carries a
    text that is non-empty, has no white space at either end, and so is not
    white space only: blank or untrimmed text is never sent. *)
Theorem requests_are_trimmed (t0 : Z) (evs : list GenieChat.Event) :
  Forall (fun r =>
            GenieChat.Req.content r <> "" /\
            JS.trim (GenieChat.Req.content r) = GenieChat.Req.content r /\
            JS.whitespaceOnly (GenieChat.Req.content r) = false)
         (GenieChat.requests (GenieChat.run evs (GenieChat.start t0))).
Proof.
  destruct (invariants_reachable t0 evs) as (_ & _ & (_ & _ & _ & _ & H)).
  eapply Forall_impl; [exact H|]. simpl. intros r [Hne Htrim].
  repeat split; try done. apply trim_nonempty. by rewrite Htrim.
Qed.

(** X3: the conversation id is set at most once.  Once a state of a run
    from the first render has a conversation id, the id is not the empty
    string and every later state has the same id, whatever the later
    responses carry. *)
Theorem conversationId_set_once (t0 : Z) (before after : list GenieChat.Event)
    (c : string) :
  GenieChat.conversationId
    (GenieChat.chat (GenieChat.run before (GenieChat.start t0))) = Some c ->
  c <> "" /\
  GenieChat.conversationId
    (GenieChat.chat (GenieChat.run after (GenieChat.run before (GenieChat.start t0))))
  = Some c.
Proof.
  pose proof (invariants_reachable t0 before) as Hinv. cbv zeta in Hinv.
  revert Hinv. generalize (GenieChat.run before (GenieChat.start t0)).
  intros w (Hc & Ht & Ha) Hcid. split.
  - destruct Ht as (Hne & _). congruence.
  - revert w Hc Ht Ha Hcid.
    induction after as [|e after IH]; intros w Hc Ht Ha Hcid; [done|].
    rewrite run_cons. apply IH.
    + by apply consistent_step.
    + by eapply threaded_step.
    + by eapply accounted_step.
    + by eapply conversationId_kept.
Qed.

Lemma conversationId_set_once_witness :
  GenieChat.conversationId
    (GenieChat.chat
       (GenieChat.run
          [GenieChat.EvSetInput "And how many farms?";
           GenieChat.EvSend 3000 3001;
           GenieChat.EvSettle 0
             (GenieChat.Resolved true
                (GenieChat.JsonObject
                   {| GenieChat.Resp.conversation_id := Some "c2";
                      GenieChat.Resp.message_id := Some "m2";
                      GenieChat.Resp.content := "Six.";
                      GenieChat.Resp.timestamp := "2025-01-01T00:01:00Z";
                      GenieChat.Resp.sql_query := None;
                      GenieChat.Resp.query_results := None |}))
             4000]
          GenieChat.sampleSuccess))
  = Some "c1".
Proof.
  exact (proj2 (conversationId_set_once 0
                  [GenieChat.EvSetInput "How many turbines?";
                   GenieChat.EvSend 1000 1001;
                   GenieChat.EvSettle 0
                     (GenieChat.Resolved true
                        (GenieChat.JsonObject GenieChat.sampleResponse)) 2000]
                  _ "c1" eq_refl)).
Defined.

(** X4: requests thread the conversation.  Along a run from the first
    render the list of issued requests only grows at its end; every request
    issued after the conversation id became [c] carries [c]; and the first
    request of all carries none. *)
Theorem requests_carry_conversation (t0 : Z) (before after : list GenieChat.Event) :
  let w := GenieChat.run before (GenieChat.start t0) in
  let w' := GenieChat.run after w in
  (exists new,
     GenieChat.requests w' = GenieChat.requests w ++ new /\
     forall c, GenieChat.conversationId (GenieChat.chat w) = Some c ->
               Forall (fun r => GenieChat.Req.conversation_id r = Some c) new) /\
  (forall r, head (GenieChat.requests w') = Some r ->
             GenieChat.Req.conversation_id r = None).
Proof.
  intros w w'.
  destruct (invariants_reachable t0 before) as (Hc & Ht & Ha). fold w in Hc, Ht, Ha.
  split; [by eapply requests_run|].
  destruct (invariants_run t0 after w (conj Hc (conj Ht Ha)))
    as (_ & (_ & _ & Hhead & _) & _).
  exact Hhead.
Qed.

(** X5: the transcript matches what was sent.  In every state of a run from
    the first render the texts of the user messages in the list, in order,
    are the texts of the requests issued, in order. *)
Theorem transcript_matches_requests (t0 : Z) (evs : list GenieChat.Event) :
  let w := GenieChat.run evs (GenieChat.start t0) in
  map GenieChat.content (GenieChatView.userMessages (GenieChat.chat w))
  = map GenieChat.Req.content (GenieChat.requests w).
Proof.
  intros w. by destruct (invariants_reachable t0 evs) as (_ & _ & (_ & _ & _ & H & _)).
Qed.

(** X6: in every state of a run from the first render the "thinking" row
    is shown exactly while a request is in flight, and then the send button
    is disabled and no error banner is shown; a banner, when shown, has the
    one fixed text. *)
Theorem spinner_and_banner (t0 : Z) (evs : list GenieChat.Event) :
  let w := GenieChat.run evs (GenieChat.start t0) in
  let st := GenieChat.chat w in
  (GenieChatView.spinnerShown st = true <-> GenieChat.inflight w <> []) /\
  (GenieChatView.spinnerShown st = true ->
   GenieChatView.sendDisabled st = true /\ GenieChatView.bannerShown st = false) /\
  (GenieChatView.bannerShown st = true ->
   GenieChat.error st = Some GenieChat.failureBanner).
Proof.
  intros w st.
  destruct (invariants_reachable t0 evs) as (Hc & _ & (Hbusy & Herr & _)).
  fold w in Hc, Hbusy, Herr. fold st in Hbusy, Herr.
  split; [by eapply consistent_loading|]. split.
  - intros Hl. split; [apply sendDisabled_true; by right|].
    unfold GenieChatView.bannerShown. by rewrite (Hbusy Hl).
  - unfold GenieChatView.bannerShown. destruct Herr as [-> | ->]; done.
Qed.

(** X7: the "Try asking" suggestions are shown exactly as long as no
    request has been issued, and once hidden they never come back. *)
Theorem suggestions_until_first_send (t0 : Z) (before after : list GenieChat.Event) :
  let w := GenieChat.run before (GenieChat.start t0) in
  let w' := GenieChat.run after w in
  (GenieChatView.suggestionsShown (GenieChat.chat w) = true <->
   GenieChat.requests w = []) /\
  (GenieChatView.suggestionsShown (GenieChat.chat w) = false ->
   GenieChatView.suggestionsShown (GenieChat.chat w') = false).
Proof.
  intros w w'.
  assert (forall v, GenieChat.consistent t0 v -> GenieChatView.accounted v ->
            (GenieChatView.suggestionsShown (GenieChat.chat v) = true <->
             GenieChat.requests v = [])) as Hiff.
  { intros v Hc (_ & _ & Hfirst & Huser & _).
    unfold GenieChatView.suggestionsShown. rewrite bool_decide_eq_true. split.
    - intros Hlen. destruct (consistent_greeting _ _ Hc) as [rest Hm].
      rewrite Hm in Hlen. destruct rest; [|done].
      unfold GenieChatView.userMessages in Huser. rewrite Hm in Huser.
      simpl in Huser. by destruct (GenieChat.requests v).
    - intros Hr. by destruct (Hfirst Hr). }
  destruct (invariants_reachable t0 before) as (Hc & Ht & Ha). fold w in Hc, Ht, Ha.
  destruct (invariants_run t0 after w (conj Hc (conj Ht Ha))) as (Hc' & _ & Ha').
  fold w' in Hc', Ha'.
  split; [by apply Hiff|].
  intros Hhidden. apply not_true_iff_false. rewrite (Hiff w' Hc' Ha').
  apply not_true_iff_false in Hhidden. rewrite (Hiff w Hc Ha) in Hhidden.
  destruct (requests_run t0 after w Hc Ht Ha) as (new & Hr & _). fold w' in Hr.
  rewrite Hr. intros Hnil. by apply app_eq_nil in Hnil as [? _].
Qed.

(** X8: the result table shows the first ten rows of the data, in order, and
    the "Showing first 10 rows" footer appears exactly when rows were left
    out. *)
Theorem result_table_truncation (r : GenieChat.QueryResults) :
  GenieChatView.shownRows r ++ drop 10 (GenieChat.data r) = GenieChat.data r /\
  length (GenieChatView.shownRows r) = (10 `min` length (GenieChat.data r))%nat /\
  (GenieChatView.truncationNotice r = true <-> drop 10 (GenieChat.data r) <> []).
Proof.
  unfold GenieChatView.shownRows, GenieChatView.truncationNotice.
  split; [apply take_drop|]. split; [apply length_take|].
  rewrite bool_decide_eq_true. split.
  - intros Hlt Hnil. apply (f_equal length) in Hnil.
    rewrite length_drop in Hnil. simpl in Hnil. lia.
  - intros Hne. destruct (decide (10 < length (GenieChat.data r))%nat); [done|].
    destruct Hne. apply drop_ge. lia.
Qed.

(** X9: [Date.now().toString()] maps different clock readings to different
    ids: two user messages get the same id only if they were created at the
    same reading, and a user message has the greeting's id "1" only at
    reading 1. *)
Theorem message_ids_distinct (a b dateA dateB : Z) (textA textB : string) :
  (JS.numberToString a = JS.numberToString b <-> a = b) /\
  (GenieChat.id (GenieChat.newUserMessage a dateA textA GenieChat.sending)
   = GenieChat.id (GenieChat.newUserMessage b dateB textB GenieChat.sending)
   <-> a = b) /\
  (forall t0,
     GenieChat.id (GenieChat.newUserMessage a dateA textA GenieChat.sending)
     = GenieChat.id (GenieChat.greeting t0) <-> a = 1).
Proof.
  assert (forall x y, JS.numberToString x = JS.numberToString y <-> x = y) as Hinj.
  { intros x y. split; [|by intros ->]. unfold JS.numberToString. intros H.
    assert (forall z, NilZero.int_of_string (NilZero.string_of_int (Z.to_int z))
                      = Some (Z.to_int z)) as Hisi.
    { intros z. apply NilZero.isi; destruct z; simpl; try discriminate;
        intros [= Hp]; by apply Unsigned.to_uint_nonnil in Hp. }
    apply (f_equal NilZero.int_of_string) in H. rewrite !Hisi in H.
    apply DecimalZ.to_int_inj. congruence. }
  split; [apply Hinj|]. split; [apply Hinj|].
  intros t0. simpl. change "1" with (JS.numberToString 1). apply Hinj.
Qed.

(** ** NotificationsDropdown *)

Section NotificationsFacts.

Import NotificationsDropdown.

Lemma asRead_read (n : Notification) : read n = true -> asRead n = n.
Proof. destruct n. simpl. by intros ->. Qed.

Lemma asRead_idempotent (n : Notification) : asRead (asRead n) = asRead n.
Proof. done. Qed.

Lemma unreadCount_cons (n : Notification) (ns : list Notification) :
  unreadCount (n :: ns) = ((if read n then 0 else 1) + unreadCount ns)%nat.
Proof. unfold unreadCount. simpl. by destruct (read n). Qed.

Lemma unreadCount_markAsRead (i : string) (ns : list Notification) :
  (unreadCount (markAsRead i ns) + length (unreadWithId i ns))%nat = unreadCount ns.
Proof.
  induction ns as [|n ns IH]; [done|].
  unfold markAsRead, unreadWithId in *. simpl.
  rewrite !unreadCount_cons.
  destruct (bool_decide (id n = i)); destruct (read n); simpl; lia.
Qed.

Lemma unreadCount_markAllAsRead (ns : list Notification) :
  unreadCount (markAllAsRead ns) = 0%nat.
Proof.
  induction ns as [|n ns IH]; [done|].
  unfold markAllAsRead in *. simpl. by rewrite unreadCount_cons.
Qed.

Lemma bool_decide_cons (x i : string) (ids : list string) :
  bool_decide (x ∈ i :: ids) = bool_decide (x = i) || bool_decide (x ∈ ids).
Proof.
  apply eq_true_iff_eq.
  rewrite orb_true_iff, !bool_decide_eq_true, elem_of_cons. done.
Qed.

(** Marking the ids of a list one after the other marks exactly the
    notifications whose id is in the list. *)
Lemma markAsRead_each (ids : list string) (ns : list Notification) :
  fold_right markAsRead ns ids
  = map (fun n => if bool_decide (id n ∈ ids) then asRead n else n) ns.
Proof.
  induction ids as [|i ids IH]; simpl.
  - symmetry. apply map_id.
  - rewrite IH. unfold markAsRead. rewrite map_map. apply map_ext. intros n.
    rewrite bool_decide_cons.
    destruct (bool_decide (id n ∈ ids)); simpl;
      destruct (bool_decide (id n = i)); done.
Qed.

Lemma perform_origin (a : Action) (ns : list Notification) :
  Forall (fun n' => exists n, n ∈ ns /\ (n' = n \/ n' = asRead n)) (perform a ns).
Proof.
  destruct a as [i| |]; simpl.
  - unfold markAsRead. apply Forall_forall. intros n' Hn'.
    apply list_elem_of_fmap in Hn' as (n & -> & Hn). exists n. split; [done|].
    destruct (bool_decide (id n = i)); auto.
  - unfold markAllAsRead. apply Forall_forall. intros n' Hn'.
    apply list_elem_of_fmap in Hn' as (n & -> & Hn). exists n. auto.
  - constructor.
Qed.

Lemma perform_shrinks (a : Action) (ns : list Notification) :
  (unreadCount (perform a ns) <= unreadCount ns)%nat /\
  (length (perform a ns) <= length ns)%nat.
Proof.
  destruct a as [i| |]; simpl.
  - split; [pose proof (unreadCount_markAsRead i ns); lia|].
    unfold markAsRead. by rewrite length_map.
  - split; [rewrite unreadCount_markAllAsRead; lia|].
    unfold markAllAsRead. by rewrite length_map.
  - unfold clearAll, unreadCount. split; simpl; lia.
Qed.

Lemma performAll_nil (actions : list Action) : performAll actions [] = [].
Proof.
  induction actions as [|a actions IH]; [done|].
  unfold performAll in *. simpl. by destruct a.
Qed.

End NotificationsFacts.

(** X10: [markAsRead] keeps the list's length and order and changes nothing
    but the [read] flag of the notifications with the given id; the unread
    count drops by exactly the number of unread notifications with that
    id. *)
Theorem markAsRead_accounts (i : string)
    (ns : list NotificationsDropdown.Notification) :
  Forall2 (fun n n' =>
             (NotificationsDropdown.id n <> i /\ n' = n) \/
             (NotificationsDropdown.id n = i /\
              n' = NotificationsDropdown.asRead n))
          ns (NotificationsDropdown.markAsRead i ns) /\
  (NotificationsDropdown.unreadCount (NotificationsDropdown.markAsRead i ns)
   + length (NotificationsDropdown.unreadWithId i ns))%nat
  = NotificationsDropdown.unreadCount ns.
Proof.
  split; [|apply unreadCount_markAsRead].
  unfold NotificationsDropdown.markAsRead.
  induction ns as [|n ns IH]; simpl; constructor; [|done].
  destruct (decide (NotificationsDropdown.id n = i)) as [Hi|Hi].
  - right. by rewrite bool_decide_eq_true_2.
  - left. by rewrite bool_decide_eq_false_2.
Qed.

(** X11: [markAsRead] leaves the list exactly as it is if and only if every
    notification with the given id is already read; in particular an id
    that no notification has changes nothing. *)
Theorem markAsRead_noop_iff (i : string)
    (ns : list NotificationsDropdown.Notification) :
  (NotificationsDropdown.markAsRead i ns = ns <->
   forall n, n ∈ ns -> NotificationsDropdown.id n = i ->
             NotificationsDropdown.read n = true) /\
  (i ∉ map NotificationsDropdown.id ns ->
   NotificationsDropdown.markAsRead i ns = ns).
Proof.
  assert (NotificationsDropdown.markAsRead i ns = ns <->
          forall n, n ∈ ns -> NotificationsDropdown.id n = i ->
                    NotificationsDropdown.read n = true) as Hiff.
  { unfold NotificationsDropdown.markAsRead.
    induction ns as [|n ns IH]; simpl.
    - split; [intros _ n Hn; by apply elem_of_nil in Hn | done].
    - split.
      + intros [= Hn Hns]. intros m [->|Hm]%elem_of_cons Hid.
        * rewrite bool_decide_eq_true_2 in Hn by done.
          rewrite <- Hn. done.
        * apply IH; done.
      + intros H. f_equal.
        * destruct (decide (NotificationsDropdown.id n = i)) as [Hi|Hi].
          -- rewrite bool_decide_eq_true_2 by done.
             apply asRead_read. apply H; [left | done].
          -- by rewrite bool_decide_eq_false_2.
        * apply IH. intros m Hm. apply H. by right. }
  split; [exact Hiff|].
  intros Hnot. apply Hiff. intros n Hn Hid. destruct Hnot.
  apply list_elem_of_fmap. eauto.
Qed.

(** X12: [markAsRead] is idempotent, calls for different ids commute, and
    [markAllAsRead] absorbs it on either side. *)
Theorem markAsRead_composes (i j : string)
    (ns : list NotificationsDropdown.Notification) :
  NotificationsDropdown.markAsRead i (NotificationsDropdown.markAsRead i ns)
  = NotificationsDropdown.markAsRead i ns /\
  NotificationsDropdown.markAsRead i (NotificationsDropdown.markAsRead j ns)
  = NotificationsDropdown.markAsRead j (NotificationsDropdown.markAsRead i ns) /\
  NotificationsDropdown.markAllAsRead (NotificationsDropdown.markAsRead i ns)
  = NotificationsDropdown.markAllAsRead ns /\
  NotificationsDropdown.markAsRead i (NotificationsDropdown.markAllAsRead ns)
  = NotificationsDropdown.markAllAsRead ns.
Proof.
  unfold NotificationsDropdown.markAsRead, NotificationsDropdown.markAllAsRead.
  rewrite !map_map.
  repeat split; apply map_ext; intros n;
    destruct (bool_decide (NotificationsDropdown.id n = i)) eqn:Ei;
    destruct (bool_decide (NotificationsDropdown.id n = j)) eqn:Ej;
    simpl; rewrite ?Ei, ?Ej; done.
Qed.

(** X13: after [markAllAsRead] nothing is unread, so the red dot, the badge
    and the "Mark all read" button are gone; the list keeps its length; and
    the result is what marking each notification of the list by its id, one
    after the other, gives. *)
Theorem markAllAsRead_clears_unread
    (ns : list NotificationsDropdown.Notification) :
  NotificationsDropdown.unreadCount (NotificationsDropdown.markAllAsRead ns) = 0%nat /\
  NotificationsDropdown.unreadShown (NotificationsDropdown.markAllAsRead ns) = false /\
  length (NotificationsDropdown.markAllAsRead ns) = length ns /\
  NotificationsDropdown.markAllAsRead ns
  = fold_right NotificationsDropdown.markAsRead ns
               (map NotificationsDropdown.id ns).
Proof.
  split; [apply unreadCount_markAllAsRead|]. split; [|split].
  - unfold NotificationsDropdown.unreadShown.
    rewrite unreadCount_markAllAsRead. done.
  - unfold NotificationsDropdown.markAllAsRead. apply length_map.
  - rewrite markAsRead_each. unfold NotificationsDropdown.markAllAsRead.
    apply map_ext_in. intros n Hn. rewrite bool_decide_eq_true_2; [done|].
    apply list_elem_of_fmap. exists n. split; [done | by apply list_elem_of_In].
Qed.

(** X14: no sequence of menu actions adds a notification or makes one
    unread: the unread count and the length never grow, every notification
    left is one of the original ones, as it was or marked read, and once
    "Clear all" has been used the list stays empty and the button itself is
    gone. *)
Theorem actions_never_unread (actions more : list NotificationsDropdown.Action)
    (ns : list NotificationsDropdown.Notification) :
  let ns' := NotificationsDropdown.performAll actions ns in
  (NotificationsDropdown.unreadCount ns' <= NotificationsDropdown.unreadCount ns)%nat /\
  (length ns' <= length ns)%nat /\
  Forall (fun n' => exists n, n ∈ ns /\
                      (n' = n \/ n' = NotificationsDropdown.asRead n)) ns' /\
  NotificationsDropdown.performAll
    (actions ++ NotificationsDropdown.ClearAll :: more) ns = [] /\
  NotificationsDropdown.clearAllShown
    (NotificationsDropdown.performAll
       (actions ++ NotificationsDropdown.ClearAll :: more) ns) = false.
Proof.
  assert (NotificationsDropdown.performAll
            (actions ++ NotificationsDropdown.ClearAll :: more) ns = []) as Hclear.
  { unfold NotificationsDropdown.performAll. rewrite fold_left_app. simpl.
    apply performAll_nil. }
  rewrite Hclear. clear Hclear.
  intros ns'. subst ns'. split; [|split; [|split; [|done]]].
  - revert ns. induction actions as [|a actions IH]; intros ns; [simpl; lia|].
    unfold NotificationsDropdown.performAll in *. simpl.
    destruct (perform_shrinks a ns) as [H _]. specialize (IH (NotificationsDropdown.perform a ns)). lia.
  - revert ns. induction actions as [|a actions IH]; intros ns; [simpl; lia|].
    unfold NotificationsDropdown.performAll in *. simpl.
    destruct (perform_shrinks a ns) as [_ H]. specialize (IH (NotificationsDropdown.perform a ns)). lia.
  - revert ns. induction actions as [|a actions IH]; intros ns.
    + apply Forall_forall. intros n Hn. exists n. auto.
    + unfold NotificationsDropdown.performAll in *. simpl.
      specialize (IH (NotificationsDropdown.perform a ns)).
      pose proof (perform_origin a ns) as Ha.
      rewrite Forall_forall in IH, Ha. apply Forall_forall. intros n' Hn'.
      destruct (IH n' Hn') as (m & Hm & Hor).
      destruct (Ha m Hm) as (n & Hn & Hor').
      exists n. split; [done|].
      destruct Hor as [->| ->], Hor' as [->| ->]; auto.
Qed.

(** ** WorkingFleetMap: the imperative map follows the selection *)

Section WorkingFleetMapRunsFacts.

Import WorkingFleetMap WorkingFleetMapRuns.

Lemma strictEq_sym_decide (a b : string) :
  JS.strictEq a (Some b) = bool_decide (a = b).
Proof. rewrite strictEq_Some. apply bool_decide_ext. split; congruence. Qed.

Lemma mount_keys (l : list WindFarm) (m : gmap string Icon) (key : string)
    (icon : Icon) :
  fold_left (fun m farm => <[id farm := farmIcon farm false]> m) l m !! key
  = Some icon ->
  (exists farm, farm ∈ l /\ id farm = key) \/ m !! key = Some icon.
Proof.
  revert m. induction l as [|f l IH]; intros m H; [by right|].
  simpl in H. apply IH in H as [(farm & Hin & Hid)|H].
  - left. exists farm. split; [by right | done].
  - destruct (decide (id f = key)) as [Heq|Hne].
    + left. exists f. split; [by left | done].
    + right. by rewrite lookup_insert_ne in H.
Qed.

Lemma lookup_empty_Some' (key : string) (icon : Icon) :
  (∅ : gmap string Icon) !! key = Some icon -> False.
Proof. by rewrite lookup_empty. Qed.

Lemma follows_mount : viewFollows (mount init) /\ markersFollow (mount init).
Proof.
  split; [reflexivity|]. split.
  - intros farm Hin. rewrite strictEq_None. by apply mount_init.
  - intros key icon H.
    apply (mount_keys windFarms ∅) in H as [H|H];
      [done | exfalso; revert H; apply lookup_empty_Some'].
Qed.

Lemma follows_click (seen : option string) (farm : WindFarm) (st : State) :
  farm ∈ windFarms ->
  viewFollows st /\ markersFollow st ->
  let st' := handleFarmClick seen (id farm) (lat farm) (lng farm) st in
  viewFollows st' /\ markersFollow st'.
Proof.
  intros Hin (Hview & Hicons & Hkeys) st'. subst st'.
  unfold viewFollows, markersFollow in *.
  rewrite handleFarmClick_selectedFarm, handleFarmClick_mapRef, Hview.
  assert (forall f b, f ∈ windFarms ->
            restyle b (markersRef st) !! id f = Some (farmIcon f (b (id f)))) as Hre.
  { intros f b Hf. rewrite restyle_lookup, (Hicons f Hf). simpl.
    by rewrite (findFarm_id f Hf). }
  assert (forall b key icon, restyle b (markersRef st) !! key = Some icon ->
            exists f, f ∈ windFarms /\ id f = key) as Hdom.
  { intros b key icon H. rewrite restyle_lookup in H.
    destruct (markersRef st !! key) as [old|] eqn:Hold; [|done]. eauto. }
  unfold handleFarmClick. rewrite Hview.
  destruct (JS.strictEq (id farm) seen) eqn:Hseen; simpl.
  - split; [done|]. split; [|apply Hdom].
    intros f Hf. rewrite strictEq_None. by apply Hre.
  - rewrite (findFarm_id farm Hin). split; [done|]. split; [|apply Hdom].
    intros f Hf. rewrite (Hre f _ Hf). by rewrite strictEq_sym_decide.
Qed.

Lemma reachable_follows (st : State) :
  reachable st -> viewFollows st /\ markersFollow st.
Proof.
  induction 1 as [|farm st Hin _ IH|farm st Hin _ IH].
  - apply follows_mount.
  - by apply follows_click.
  - by apply follows_click.
Qed.

End WorkingFleetMapRunsFacts.

(** X15: in every state of the mounted [WorkingFleetMap], reached by any
    mix of card clicks and marker clicks, the imperative Leaflet state
    agrees with [selectedFarm]: the map is on the overview when nothing is
    selected and on the selected location at the zoomed-in level otherwise;
    the marker table has exactly the ids of the locations as keys, and each
    marker's icon is the one of its location, emphasised exactly for the
    selected one. *)
Theorem working_map_follows_selection (st : WorkingFleetMap.State) :
  WorkingFleetMapRuns.reachable st ->
  WorkingFleetMap.mapRef st
  = Some (match findFarm (WorkingFleetMap.selectedFarm st) with
          | Some farm => {| WorkingFleetMap.center := (lat farm, lng farm);
                            WorkingFleetMap.zoom := farmZoom |}
          | None => {| WorkingFleetMap.center := overviewCenter;
                       WorkingFleetMap.zoom := overviewZoom |}
          end) /\
  (WorkingFleetMap.selectedFarm st = None \/
   exists farm, farm ∈ windFarms /\
                WorkingFleetMap.selectedFarm st = Some (id farm)) /\
  (forall farm, farm ∈ windFarms ->
     exists icon,
       WorkingFleetMap.markersRef st !! id farm = Some icon /\
       icon = WorkingFleetMap.farmIcon farm (emphasized icon) /\
       (emphasized icon = true <->
        WorkingFleetMap.selectedFarm st = Some (id farm))) /\
  (forall key, is_Some (WorkingFleetMap.markersRef st !! key) <->
               key ∈ map id windFarms).
Proof.
  intros Hr. destruct (reachable_follows st Hr) as (Hview & Hicons & Hkeys).
  split; [exact Hview|]. split; [|split].
  - clear Hview Hicons Hkeys.
    induction Hr as [|farm st Hin _ _|farm st Hin _ _]; [by left| |].
    + unfold WorkingFleetMap.clickCard. rewrite handleFarmClick_selectedFarm.
      destruct (JS.strictEq _ _); [by left | right; eauto].
    + unfold WorkingFleetMap.clickMarker. rewrite handleFarmClick_selectedFarm.
      rewrite strictEq_None. right; eauto.
  - intros farm Hin. eexists. split; [by apply Hicons|].
    rewrite farmIcon_emphasized. split; [done|]. apply strictEq_true.
  - intros key. split.
    + intros [icon Hicon]. destruct (Hkeys key icon Hicon) as (farm & Hin & <-).
      apply list_elem_of_fmap. eauto.
    + intros (farm & -> & Hin)%list_elem_of_fmap. rewrite (Hicons farm Hin). eauto.
Qed.

Lemma working_map_follows_selection_witness :
  WorkingFleetMap.mapRef
    (WorkingFleetMap.clickMarker txPanhandle
       (WorkingFleetMap.mount WorkingFleetMap.init))
  = Some {| WorkingFleetMap.center := (35.2, -101.8)%Q;
            WorkingFleetMap.zoom := 7 |}.
Proof.
  exact (proj1 (working_map_follows_selection _
                  (WorkingFleetMapRuns.reachable_marker _ _ txPanhandle_in
                     WorkingFleetMapRuns.reachable_mount))).
Defined.

(** X16: in [WorkingFleetMap] a click on the map marker of the selected
    location changes nothing at all (it stays selected, the view and every
    icon are as before), while a click on its card clears the selection and
    returns the map to the overview: the marker listeners, installed once
    by the mount effect, never deselect. *)
Theorem marker_click_never_deselects (farm : WindFarm) (st : WorkingFleetMap.State) :
  farm ∈ windFarms ->
  WorkingFleetMapRuns.reachable st ->
  WorkingFleetMap.selectedFarm st = Some (id farm) ->
  WorkingFleetMap.clickMarker farm st = st /\
  WorkingFleetMap.selectedFarm (WorkingFleetMap.clickCard farm st) = None /\
  WorkingFleetMap.mapRef (WorkingFleetMap.clickCard farm st)
  = Some {| WorkingFleetMap.center := overviewCenter;
            WorkingFleetMap.zoom := overviewZoom |}.
Proof.
  intros Hin Hr Hsel.
  destruct (reachable_follows st Hr) as (Hview & Hicons & Hkeys).
  unfold WorkingFleetMapRuns.viewFollows in Hview.
  rewrite Hsel, (findFarm_id farm Hin) in Hview.
  split; [|split].
  - unfold WorkingFleetMap.clickMarker, WorkingFleetMap.handleFarmClick.
    rewrite Hview, strictEq_None. simpl.
    destruct st as [sel mref markers]. simpl in *. subst sel. rewrite Hview.
    f_equal. apply map_eq. intros key. rewrite restyle_lookup.
    destruct (markers !! key) as [icon|] eqn:Hicon; [|done]. simpl.
    destruct (Hkeys key icon Hicon) as (f & Hf & <-).
    rewrite (findFarm_id f Hf). rewrite (Hicons f Hf) in Hicon.
    inversion Hicon. by rewrite strictEq_sym_decide.
  - unfold WorkingFleetMap.clickCard.
    by rewrite handleFarmClick_selectedFarm, Hsel, strictEq_refl.
  - unfold WorkingFleetMap.clickCard.
    by rewrite handleFarmClick_mapRef, Hsel, strictEq_refl, Hview.
Qed.

Lemma marker_click_never_deselects_witness :
  WorkingFleetMap.selectedFarm
    (WorkingFleetMap.clickMarker txPanhandle
       (WorkingFleetMap.clickMarker txPanhandle
          (WorkingFleetMap.mount WorkingFleetMap.init)))
  = Some "tx-panhandle".
Proof.
  rewrite (proj1 (marker_click_never_deselects txPanhandle
                    (WorkingFleetMap.clickMarker txPanhandle
                       (WorkingFleetMap.mount WorkingFleetMap.init))
                    txPanhandle_in
                    (WorkingFleetMapRuns.reachable_marker _ _ txPanhandle_in
                       WorkingFleetMapRuns.reachable_mount)
                    eq_refl)).
  reflexivity.
Defined.

(** ** The other map variants *)

Lemma windFarms_ids_plain (farm : WindFarm) :
  farm ∈ windFarms -> JS.truthy (id farm) = true /\ id farm <> "all".
Proof.
  revert farm.
  apply (windFarms_cases
           (fun farm => JS.truthy (id farm) = true /\ id farm <> "all"));
    (split; [reflexivity | discriminate]).
Qed.

(** X17: in every state of [ProperFleetMap] reached by clicks on the
    rendered locations, the details overlay ([selectedFarmData]) shows a
    location exactly when one is selected, and then it is the location
    whose marker is emphasised and on which the map is centred at the
    zoomed-in level; with no overlay, no marker is emphasised and the map is
    on the overview. *)
Theorem details_overlay_follows (st : ProperFleetMap.State) :
  ProperFleetMap.reachable st ->
  match ProperFleetMap.selectedFarmData st with
  | Some L =>
      L ∈ windFarms /\
      ProperFleetMap.selectedFarm st = Some (id L) /\
      ProperFleetMap.emphasizedFarms st = [L] /\
      ProperFleetMap.mapCenter st = (lat L, lng L) /\
      ProperFleetMap.mapZoom st = farmZoom
  | None =>
      ProperFleetMap.selectedFarm st = None /\
      ProperFleetMap.emphasizedFarms st = [] /\
      ProperFleetMap.mapCenter st = overviewCenter /\
      ProperFleetMap.mapZoom st = overviewZoom
  end.
Proof.
  intros [->|(farm & Hin & ->)]%reachable_shape.
  - done.
  - unfold ProperFleetMap.selectedFarmData. simpl. rewrite (findFarm_id farm Hin).
    repeat split; try done. by apply emphasizedFarms_selected.
Qed.

Lemma details_overlay_follows_witness :
  iaCorn ∈ windFarms /\
  ProperFleetMap.selectedFarm
    (ProperFleetMap.clickFarm iaCorn ProperFleetMap.init) = Some (id iaCorn) /\
  ProperFleetMap.emphasizedFarms
    (ProperFleetMap.clickFarm iaCorn ProperFleetMap.init) = [iaCorn] /\
  ProperFleetMap.mapCenter
    (ProperFleetMap.clickFarm iaCorn ProperFleetMap.init) = (lat iaCorn, lng iaCorn) /\
  ProperFleetMap.mapZoom
    (ProperFleetMap.clickFarm iaCorn ProperFleetMap.init) = farmZoom.
Proof.
  exact (details_overlay_follows
           (ProperFleetMap.clickFarm iaCorn ProperFleetMap.init)
           (ProperFleetMap.reachable_click _ _ iaCorn_in
              ProperFleetMap.reachable_init)).
Defined.

Section InteractiveFleetMapFacts.

Import InteractiveFleetMap.

Lemma interactive_shape (st : State) :
  reachable st ->
  zoomLevel st = 5 /\
  (selectedFarm st = None \/
   exists farm, farm ∈ windFarms /\ selectedFarm st = Some (id farm)).
Proof.
  induction 1 as [|farm st Hin _ [Hz _]]; [by split; [|left]|].
  split; [done|]. simpl.
  destruct (JS.strictEq (id farm) (selectedFarm st)); [by left | right; eauto].
Qed.

Lemma largeMarkers_selected (farm : WindFarm) (z : Z) :
  farm ∈ windFarms ->
  largeMarkers {| selectedFarm := Some (id farm); zoomLevel := z |} = [farm].
Proof.
  revert farm.
  apply (windFarms_cases
           (fun farm => largeMarkers {| selectedFarm := Some (id farm);
                                        zoomLevel := z |} = [farm]));
    reflexivity.
Qed.

End InteractiveFleetMapFacts.

(** X18: in every state of [InteractiveFleetMap] reached by clicks on the
    rendered locations, exactly one of the details overlay and the "Click
    any marker" hint is shown; the large marker is that of the location in
    the overlay and there is none without overlay; the zoom level is still
    5, since nothing sets it; and two clicks on a location L restore the
    state whenever nothing or L was selected. *)
Theorem interactive_overlay_or_hint (st : InteractiveFleetMap.State) :
  InteractiveFleetMap.reachable st ->
  InteractiveFleetMap.overlayShown st = negb (InteractiveFleetMap.hintShown st) /\
  InteractiveFleetMap.largeMarkers st
  = match InteractiveFleetMap.selectedFarmData st with
    | Some L => [L]
    | None => []
    end /\
  InteractiveFleetMap.zoomLevel st = 5 /\
  (forall L, L ∈ windFarms ->
     InteractiveFleetMap.selectedFarm st = None \/
     InteractiveFleetMap.selectedFarm st = Some (id L) ->
     InteractiveFleetMap.clickFarm L (InteractiveFleetMap.clickFarm L st) = st).
Proof.
  intros Hr. destruct (interactive_shape st Hr) as [Hz Hsel].
  destruct st as [sel z]. simpl in *. subst z.
  unfold InteractiveFleetMap.overlayShown, InteractiveFleetMap.hintShown,
    InteractiveFleetMap.selectedFarmData. simpl.
  split; [|split; [|split; [done|]]].
  - destruct Hsel as [->|(farm & Hin & ->)]; [done|].
    rewrite (findFarm_id farm Hin). simpl.
    by destruct (windFarms_ids_plain farm Hin) as [-> _].
  - destruct Hsel as [->|(farm & Hin & ->)]; [done|].
    rewrite (findFarm_id farm Hin). by apply largeMarkers_selected.
  - intros L HL [->| ->]; unfold InteractiveFleetMap.clickFarm;
      cbn [InteractiveFleetMap.selectedFarm InteractiveFleetMap.zoomLevel].
    + rewrite strictEq_None.
      cbn [InteractiveFleetMap.selectedFarm]. by rewrite strictEq_refl.
    + rewrite strictEq_refl.
      cbn [InteractiveFleetMap.selectedFarm]. by rewrite strictEq_None.
Qed.

Lemma interactive_overlay_or_hint_witness :
  InteractiveFleetMap.largeMarkers
    (InteractiveFleetMap.clickFarm txPanhandle InteractiveFleetMap.init)
  = [txPanhandle].
Proof.
  exact (proj1 (proj2 (interactive_overlay_or_hint _
                         (InteractiveFleetMap.reachable_click _ _ txPanhandle_in
                            InteractiveFleetMap.reachable_init)))).
Defined.

Section SimpleFleetMapFacts.

Import SimpleFleetMap.

Lemma simple_shape (st : State) :
  reachable st ->
  selectedFarm st = None \/
  exists farm, farm ∈ windFarms /\ selectedFarm st = Some (id farm).
Proof.
  induction 1 as [|farm st Hin _ _|st _ _ _]; [by left | right; eauto | by left].
Qed.

End SimpleFleetMapFacts.

(** X19: [SimpleFleetMap] only selects.  In every state reached by clicks
    on locations and on "View All Farms", that button is rendered exactly
    when a location is selected, which is exactly when the map frame is
    zoomed on a location, and the frame's key is "all" exactly when nothing
    is selected; a click on a location L selects L whatever was selected,
    and it leaves the frame's key unchanged (no reload) exactly when L was
    selected already. *)
Theorem simple_map_selects (st : SimpleFleetMap.State) (L : WindFarm) :
  SimpleFleetMap.reachable st ->
  L ∈ windFarms ->
  (SimpleFleetMap.viewAllShown st = true <-> SimpleFleetMap.selectedFarm st <> None) /\
  SimpleFleetMap.zoomedUrl st = SimpleFleetMap.viewAllShown st /\
  (SimpleFleetMap.frameKey st = "all" <-> SimpleFleetMap.selectedFarm st = None) /\
  SimpleFleetMap.selectedFarm (SimpleFleetMap.clickFarm L st) = Some (id L) /\
  SimpleFleetMap.clickFarm L (SimpleFleetMap.clickFarm L st)
  = SimpleFleetMap.clickFarm L st /\
  (SimpleFleetMap.frameKey (SimpleFleetMap.clickFarm L st) = SimpleFleetMap.frameKey st
   <-> SimpleFleetMap.selectedFarm st = Some (id L)).
Proof.
  intros Hr HL. destruct (windFarms_ids_plain L HL) as [HtL HallL].
  destruct st as [sel]. apply simple_shape in Hr. simpl in Hr.
  unfold SimpleFleetMap.viewAllShown, SimpleFleetMap.zoomedUrl,
    SimpleFleetMap.selectedFarmData, SimpleFleetMap.frameKey. simpl. rewrite HtL.
  destruct Hr as [->|(farm & Hin & ->)].
  - simpl. repeat split; done.
  - destruct (windFarms_ids_plain farm Hin) as [Ht Hall].
    rewrite (findFarm_id farm Hin). simpl. rewrite Ht.
    repeat split; try done; try congruence.
Qed.

Lemma simple_map_selects_witness :
  SimpleFleetMap.frameKey
    (SimpleFleetMap.clickFarm txPanhandle SimpleFleetMap.init) = "all"
  <-> SimpleFleetMap.selectedFarm
        (SimpleFleetMap.clickFarm txPanhandle SimpleFleetMap.init) = None.
Proof.
  exact (proj1 (proj2 (proj2 (simple_map_selects _ iaCorn
                                (SimpleFleetMap.reachable_click _ _ txPanhandle_in
                                   SimpleFleetMap.reachable_init)
                                iaCorn_in)))).
Defined.

(** ** FleetMap: the turbine dots *)

Section FleetMapFacts.

Import FleetMap.

Lemma dots_among_thirty (j : nat) :
  (length (List.filter (fun idx => Nat.eqb (farmIndex idx) j) (seq 0 30)) <= 5)%nat.
Proof.
  do 6 (destruct j as [|j]; [vm_compute; lia|]).
  vm_compute. lia.
Qed.

Lemma filter_seq_prefix (P : nat -> bool) (n m : nat) :
  (n <= m)%nat ->
  (length (List.filter P (seq 0 n)) <= length (List.filter P (seq 0 m)))%nat.
Proof.
  intros H. replace m with (n + (m - n))%nat by lia.
  rewrite seq_app, List.filter_app, length_app. lia.
Qed.

End FleetMapFacts.

(** X20: whatever list of turbines [FleetMap] receives, at most 30 dots are
    drawn; every dot is placed around an existing location (the array
    lookup is never [undefined]), the one at position [idx mod 6]; all dots
    of a location lie at one of the three distances, since the distance
    index [idx mod 3] is determined by the location's position; and no
    location gets more than five dots. *)
Theorem turbine_dots_spread (T : Type) (turbines : list T) (idx j : nat) :
  length (FleetMap.shownTurbines turbines) = (30 `min` length turbines)%nat /\
  (exists farm, FleetMap.farmOf idx = Some farm /\ farm ∈ windFarms) /\
  FleetMap.ring idx = (FleetMap.farmIndex idx mod 3)%nat /\
  (length (FleetMap.dotsOf j turbines) <= 5)%nat.
Proof.
  split; [apply length_take|]. split; [|split].
  - unfold FleetMap.farmOf, FleetMap.farmIndex.
    assert (idx mod length windFarms < length windFarms)%nat as Hlt
      by (apply Nat.mod_upper_bound; discriminate).
    destruct (lookup_lt_is_Some_2 windFarms _ Hlt) as [farm Hfarm].
    exists farm. split; [done|]. by eapply list_elem_of_lookup_2.
  - unfold FleetMap.ring, FleetMap.farmIndex.
    change (length windFarms) with (3 * 2)%nat.
    by rewrite Nat.Div0.mod_mul_r, Nat.mul_comm, Nat.Div0.mod_add, Nat.Div0.mod_mod.
  - unfold FleetMap.dotsOf.
    etrans; [|apply (dots_among_thirty j)].
    apply filter_seq_prefix. unfold FleetMap.shownTurbines.
    rewrite length_take. lia.
Qed.

(** ** TurbineFleetDashboard: what a poll refreshes *)

(** X21: one run of [fetchData] never fails, keeps the active tab, and
    refreshes a state variable exactly when its own response is [ok] with a
    JSON body and no earlier block threw (a rejected fetch, or an [ok]
    response without valid JSON); every other variable keeps its value.  The
    endpoints are fetched in order up to and including the first block that
    throws, and a thrown error is logged once. *)
Theorem fetchData_refreshes (Kpis Summary Energy Turbine : Type)
    (r1 : TurbineFleetDashboard.Reply (option Kpis))
    (r2 : TurbineFleetDashboard.Reply (option Summary))
    (r3 : TurbineFleetDashboard.Reply (list Energy))
    (r4 : TurbineFleetDashboard.Reply (list Turbine))
    (st : TurbineFleetDashboard.State Kpis Summary Energy Turbine)
    (tr : TurbineFleetDashboard.Trace) :
  let t1 := TurbineFleetDashboard.throws r1 in
  let t2 := t1 || TurbineFleetDashboard.throws r2 in
  let t3 := t2 || TurbineFleetDashboard.throws r3 in
  let t4 := t3 || TurbineFleetDashboard.throws r4 in
  let st' := fst (TurbineFleetDashboard.fetchData r1 r2 r3 r4 (st, tr)) in
  let tr' := snd (TurbineFleetDashboard.fetchData r1 r2 r3 r4 (st, tr)) in
  TurbineFleetDashboard.kpis st'
  = default (TurbineFleetDashboard.kpis st) (TurbineFleetDashboard.delivered r1) /\
  TurbineFleetDashboard.assistantSummary st'
  = (if t1 then TurbineFleetDashboard.assistantSummary st
     else default (TurbineFleetDashboard.assistantSummary st)
                  (TurbineFleetDashboard.delivered r2)) /\
  TurbineFleetDashboard.energyData st'
  = (if t2 then TurbineFleetDashboard.energyData st
     else default (TurbineFleetDashboard.energyData st)
                  (TurbineFleetDashboard.delivered r3)) /\
  TurbineFleetDashboard.turbines st'
  = (if t3 then TurbineFleetDashboard.turbines st
     else default (TurbineFleetDashboard.turbines st)
                  (TurbineFleetDashboard.delivered r4)) /\
  TurbineFleetDashboard.activeTab st' = TurbineFleetDashboard.activeTab st /\
  TurbineFleetDashboard.fetched tr'
  = TurbineFleetDashboard.fetched tr
    ++ take (if t1 then 1 else if t2 then 2 else if t3 then 3 else 4)
            TurbineFleetDashboard.endpoints /\
  TurbineFleetDashboard.logged tr'
  = (TurbineFleetDashboard.logged tr + (if t4 then 1 else 0))%nat.
Proof.
  destruct r1 as [|[] []], r2 as [|[] []], r3 as [|[] []], r4 as [|[] []];
    simpl; rewrite <- ?app_assoc, ?Nat.add_0_r, ?Nat.add_1_r;
    repeat split; reflexivity.
Qed.

(** X22: a failed poll never blanks what is on screen.  A poll that
    delivers nothing (every response rejected, not [ok] or without JSON)
    leaves all five state variables as they were; and polling twice with
    the same replies gives the state that polling once gives. *)
Theorem polling_keeps_data (Kpis Summary Energy Turbine : Type)
    (r1 : TurbineFleetDashboard.Reply (option Kpis))
    (r2 : TurbineFleetDashboard.Reply (option Summary))
    (r3 : TurbineFleetDashboard.Reply (list Energy))
    (r4 : TurbineFleetDashboard.Reply (list Turbine))
    (st : TurbineFleetDashboard.State Kpis Summary Energy Turbine)
    (tr : TurbineFleetDashboard.Trace) :
  (TurbineFleetDashboard.delivered r1 = None ->
   TurbineFleetDashboard.delivered r2 = None ->
   TurbineFleetDashboard.delivered r3 = None ->
   TurbineFleetDashboard.delivered r4 = None ->
   fst (TurbineFleetDashboard.fetchData r1 r2 r3 r4 (st, tr)) = st) /\
  fst (TurbineFleetDashboard.fetchData r1 r2 r3 r4
         (TurbineFleetDashboard.fetchData r1 r2 r3 r4 (st, tr)))
  = fst (TurbineFleetDashboard.fetchData r1 r2 r3 r4 (st, tr)).
Proof.
  destruct st as [k s e t tab]. split.
  - destruct r1 as [|[] []], r2 as [|[] []], r3 as [|[] []], r4 as [|[] []];
      simpl; intros; try discriminate; reflexivity.
  - destruct r1 as [|[] []], r2 as [|[] []], r3 as [|[] []], r4 as [|[] []];
      reflexivity.
Qed.

Lemma polling_keeps_data_witness :
  fst (TurbineFleetDashboard.fetchData
         (TurbineFleetDashboard.Responds false (Some (Some 7)))
         (TurbineFleetDashboard.Rejects : TurbineFleetDashboard.Reply (option string))
         (TurbineFleetDashboard.Responds true (None : option (list Z)))
         (TurbineFleetDashboard.Responds true (None : option (list Z)))
         ({| TurbineFleetDashboard.kpis := Some 5;
             TurbineFleetDashboard.assistantSummary := Some "calm";
             TurbineFleetDashboard.energyData := [1; 2];
             TurbineFleetDashboard.turbines := [3];
             TurbineFleetDashboard.activeTab := "homepage" |},
          {| TurbineFleetDashboard.fetched := [];
             TurbineFleetDashboard.logged := 0 |}))
  = {| TurbineFleetDashboard.kpis := Some 5;
       TurbineFleetDashboard.assistantSummary := Some "calm";
       TurbineFleetDashboard.energyData := [1; 2];
       TurbineFleetDashboard.turbines := [3];
       TurbineFleetDashboard.activeTab := "homepage" |}.
Proof.
  exact (proj1 (polling_keeps_data Z string Z Z
                  (TurbineFleetDashboard.Responds false (Some (Some 7)))
                  TurbineFleetDashboard.Rejects
                  (TurbineFleetDashboard.Responds true None)
                  (TurbineFleetDashboard.Responds true None)
                  {| TurbineFleetDashboard.kpis := Some 5;
                     TurbineFleetDashboard.assistantSummary := Some "calm";
                     TurbineFleetDashboard.energyData := [1; 2];
                     TurbineFleetDashboard.turbines := [3];
                     TurbineFleetDashboard.activeTab := "homepage" |}
                  {| TurbineFleetDashboard.fetched := [];
                     TurbineFleetDashboard.logged := 0 |})
           eq_refl eq_refl eq_refl eq_refl).
Defined.

(** ** GenieChat: retrying after a failure *)

(** X23: after a failed send the user can retry at once.  Typing a new
    non-blank text and sending it is accepted: the banner is cleared, the
    failed message stays in the list with status ['error'], the new user
    message follows it with status ['sending'], and the retry's request
    carries the same conversation id as the failed one. *)
Theorem retry_after_failure (w : GenieChat.World) (idNow dateNow now idNow' dateNow' : Z)
    (o : GenieChat.FetchOutcome) (text : string) :
  GenieChat.inflight w = [] ->
  GenieChat.isLoading (GenieChat.chat w) = false ->
  JS.trim (GenieChat.input (GenieChat.chat w)) <> "" ->
  GenieChat.succeeds o = None ->
  JS.trim text <> "" ->
  let st := GenieChat.chat w in
  let w' := GenieChat.run
              [GenieChat.EvSend idNow dateNow; GenieChat.EvSettle 0 o now;
               GenieChat.EvSetInput text; GenieChat.EvSend idNow' dateNow'] w in
  GenieChat.messages (GenieChat.chat w')
  = GenieChat.messages st
    ++ [GenieChat.newUserMessage idNow dateNow (GenieChat.input st) GenieChat.failed;
        GenieChat.newUserMessage idNow' dateNow' text GenieChat.sending] /\
  GenieChat.error (GenieChat.chat w') = None /\
  GenieChat.isLoading (GenieChat.chat w') = true /\
  GenieChat.requests w'
  = GenieChat.requests w
    ++ [{| GenieChat.Req.content := JS.trim (GenieChat.input st);
           GenieChat.Req.conversation_id := GenieChat.conversationId st |};
        {| GenieChat.Req.content := JS.trim text;
           GenieChat.Req.conversation_id := GenieChat.conversationId st |}].
Proof.
  intros Hin Hl Htrim Hko Htext st w'. subst st w'.
  apply trim_nonempty in Htrim. apply trim_nonempty in Htext.
  rewrite run_cons, (step_send_accepted _ _ _ Htrim Hl), Hin.
  rewrite run_cons.
  rewrite (step_settle_head
             {| GenieChat.userMessage :=
                  GenieChat.newUserMessage idNow dateNow
                    (GenieChat.input (GenieChat.chat w)) GenieChat.sending;
                GenieChat.conversationIdSeen :=
                  GenieChat.conversationId (GenieChat.chat w) |})
    by reflexivity.
  cbn [GenieChat.chat GenieChat.requests].
  rewrite (settle_failure _ _ _ _ Hko).
  cbn [GenieChat.messages GenieChat.input GenieChat.conversationId
       GenieChat.showSqlFor GenieChat.userMessage].
  rewrite slice_0_m1_snoc.
  rewrite run_cons. cbn [GenieChat.step GenieChat.chat GenieChat.inflight
                         GenieChat.requests GenieChat.setInput
                         GenieChat.messages GenieChat.isLoading
                         GenieChat.conversationId GenieChat.error
                         GenieChat.showSqlFor].
  rewrite run_cons, step_send_accepted by done. simpl.
  rewrite <- !app_assoc. done.
Qed.

Lemma retry_after_failure_witness :
  GenieChat.error
    (GenieChat.chat
       (GenieChat.run
          [GenieChat.EvSend 1000 1001; GenieChat.EvSettle 0 GenieChat.Rejected 2000;
           GenieChat.EvSetInput "How many turbines?"; GenieChat.EvSend 3000 3001]
          GenieChat.sampleWorld)) = None.
Proof.
  assert (JS.trim (GenieChat.input (GenieChat.chat GenieChat.sampleWorld)) <> "")
    as Htrim by (vm_compute; discriminate).
  assert (JS.trim "How many turbines?" <> "") as Htext by (vm_compute; discriminate).
  exact (proj1 (proj2 (retry_after_failure GenieChat.sampleWorld 1000 1001 2000
                         3000 3001 GenieChat.Rejected "How many turbines?"
                         eq_refl eq_refl Htrim eq_refl Htext))).
Defined.
